(** * Sinkhorn solvers of [losses/bregman_pytorch.py]

    A shallow embedding of the three entropic optimal-transport solvers
    ([sinkhorn_knopp], [sinkhorn_stabilized], [sinkhorn_epsilon_scaling])
    and of the properties their specification states about them.

    - Numbers are IEEE-754 binary64 values (Rocq's primitive [float]), so
      NaN, infinities, signed zeros and rounding behave as they do for
      tensors of dtype float64.
    - [torch.exp] and [torch.log] are library functions: the solvers take
      them as parameters ([fexp], [flog]) and every general theorem holds
      for any pair of functions.  Module [Reference] gives an executable
      pair, used only to run the solvers on sample inputs.
    - A 1-d tensor is a [list float]; a 2-d tensor carries its shape and its
      rows.  Reductions ([sum], [matmul]) accumulate from left to right,
      starting at 0.  Warm-start vectors are taken to have the shapes of
      [a] and [b].
    - A call returns [Ok] with its value or [Raise] with the exception it
      ends in.  A [while] loop is a function of a fuel and a state; the
      solvers give their loop [maxIter] units of fuel, which lets it run
      until its guard fails ([eps_loop_exit], [stab_loop_exit],
      [knopp_loop_run]).
    - Printing ([verbose]) has no effect on the result, except that
      [it % print_freq] raises when [print_freq] is 0.  The dispatcher
      [sinkhorn] is modelled without extra keyword arguments.
    - [sinkhorn_stabilized] updates its potentials in place, and with a warm
      start they are the caller's own tensors.  [sinkhorn_stabilized] below
      takes the tensors by value: it is the solver called with warm-start
      tensors that are objects of their own, as the controller and a call
      without warm start always do.  [sinkhorn_stabilized_inplace] takes the
      caller's tensors by reference, in a store where one object may be
      passed in several places; the two are proved to agree whenever the
      warm-start tensors are separate objects. *)

From Stdlib Require Import String.
From Stdlib Require Import List ZArith Bool Lia.
From Stdlib Require Import Floats.
Import ListNotations.

Local Open Scope Z_scope.

(* Decimal literals denote the nearest binary64 value, as in Python. *)
Set Warnings "-inexact-float".

(** ** Scalars *)

Definition M_EPS : float := 1e-16%float.

Definition of_nat (n : nat) : float := of_uint63 (Uint63Axioms.of_Z (Z.of_nat n)).

(** [x > y] and [x >= y] on floats: false as soon as an operand is NaN. *)
Definition fgt (x y : float) : bool := (y <? x)%float.
Definition fge (x y : float) : bool := (y <=? x)%float.

(** ** Tensors *)

Definition vec := list float.

Record tensor2 := mkT2 { shape0 : nat; shape1 : nat; rows : list vec }.

Fixpoint zipWith {A B C : Type} (f : A -> B -> C) (x : list A) (y : list B) : list C :=
  match x, y with
  | a :: x', b :: y' => f a b :: zipWith f x' y'
  | _, _ => []
  end.

Definition tmap (f : float -> float) (M : tensor2) : tensor2 :=
  mkT2 (shape0 M) (shape1 M) (map (map f) (rows M)).

Definition tzip (f : float -> float -> float) (M N : tensor2) : tensor2 :=
  mkT2 (shape0 M) (shape1 M) (zipWith (zipWith f) (rows M) (rows N)).

Definition entries (M : tensor2) : list float := List.concat (rows M).

(** [torch.ones(n) / n], also the value [u.fill_(1. / n)] leaves. *)
Definition uniform (n : nat) : vec := repeat (1 / of_nat n)%float n.

Definition zeros (n : nat) : vec := repeat 0%float n.

Definition vadds (x : vec) (s : float) : vec := map (fun xi => (xi + s)%float) x.
Definition vscale (s : float) (x : vec) : vec := map (fun xi => (s * xi)%float) x.
Definition vadd (x y : vec) : vec := zipWith PrimFloat.add x y.
Definition vsub (x y : vec) : vec := zipWith PrimFloat.sub x y.
Definition vmul (x y : vec) : vec := zipWith PrimFloat.mul x y.
Definition vdiv (x y : vec) : vec := zipWith PrimFloat.div x y.

Definition tsum (x : list float) : float := fold_left PrimFloat.add x 0%float.

(** [torch.matmul(u, K)]: the vector whose j-th entry is sum_i u_i * K_ij. *)
Definition matmul_vM (u : vec) (K : tensor2) : vec :=
  fold_left (fun acc ur => vadd acc (vscale (fst ur) (snd ur)))
            (combine u (rows K)) (zeros (shape1 K)).

(** [torch.matmul(K, v)]: the vector whose i-th entry is sum_j K_ij * v_j. *)
Definition matmul_Mv (K : tensor2) (v : vec) : vec :=
  map (fun row => tsum (vmul row v)) (rows K).

(** [torch.sum(P, 0)]: column sums. *)
Definition sum_axis0 (P : tensor2) : vec :=
  fold_left vadd (rows P) (zeros (shape1 P)).

(** [x.min()] and [x.max()] of a non-empty tensor; a NaN entry wins. *)
Definition fmin (acc x : float) : float :=
  if is_nan acc then acc else if is_nan x then x
  else if (x <? acc)%float then x else acc.
Definition fmax (acc x : float) : float :=
  if is_nan acc then acc else if is_nan x then x
  else if (acc <? x)%float then x else acc.
Definition tmin (x : list float) : float :=
  match x with [] => nan | x0 :: x' => fold_left fmin x' x0 end.
Definition tmax (x : list float) : float :=
  match x with [] => nan | x0 :: x' => fold_left fmax x' x0 end.

Definition any_isnan (x : vec) : bool := existsb is_nan x.
Definition any_isinf (x : vec) : bool := existsb is_infinity x.

(** ** Exceptions and results *)

Inductive exn :=
| AssertionError (msg : string)
| ZeroDivisionError
| TypeError
| UnboundLocalError.

Inductive result (A : Type) :=
| Ok (x : A)
| Raise (e : exn).
Arguments Ok {A} x.
Arguments Raise {A} e.

Definition bind {A B : Type} (r : result A) (k : A -> result B) : result B :=
  match r with
  | Ok x => k x
  | Raise e => Raise e
  end.

Notation "x <- r ;; k" := (bind r (fun x => k))
  (at level 61, r at next level, right associativity).

Definition assert (c : bool) (msg : string) : result unit :=
  if c then Ok tt else Raise (AssertionError msg).

(** [flag and it % freq == 0]: the modulus is only evaluated when [flag]
    holds, and a zero divisor raises. *)
Definition flag_and_multiple (flag : bool) (it freq : Z) : result bool :=
  if flag then
    if freq =? 0 then Raise ZeroDivisionError else Ok (it mod freq =? 0)
  else Ok false.

(** The four assertions every solver starts with (lines 35-38, 112-115 and
    206-209). *)
Definition check_inputs (a b : vec) (C : tensor2) (reg : float) : result unit :=
  let na := shape0 C in
  let nb := shape1 C in
  _ <- assert ((1 <=? na)%nat && (1 <=? nb)%nat) "C needs to be 2d"%string ;;
  _ <- assert ((na =? length a)%nat && (nb =? length b)%nat)
         "Shape of a or b does't match that of C"%string ;;
  _ <- assert (fgt reg 0) "reg should be greater than 0"%string ;;
  assert (fge (tmin a) 0 && fge (tmin b) 0) "Elements in a or b less than 0"%string.

(** The log dictionary a solver returns. *)
Record log_t := mkLog {
  log_err : list float;
  log_u : vec;
  log_v : vec;
  log_alpha : vec;
  log_beta : vec
}.

Section Solvers.

(** [torch.exp] and [torch.log] on one entry. *)
Variable fexp : float -> float.
Variable flog : float -> float.

Definition vlog_eps (x : vec) : vec := map (fun xi => flog (xi + M_EPS)%float) x.

(** ** sinkhorn_knopp *)

Record kstate := mkK {
  ks_u : vec;
  ks_v : vec;
  ks_err : float;
  ks_it : Z;
  ks_errs : list float
}.

(** [K = exp(C / -reg)] (lines 50-52). *)
Definition knopp_kernel (C : tensor2) (reg : float) : tensor2 :=
  tmap fexp (tmap (fun c => (c / - reg)%float) C).

(** Lines 65-68: the new [(u, v)]. *)
Definition knopp_update (a b : vec) (K : tensor2) (u : vec) : vec * vec :=
  let KTu := matmul_vM u K in
  let v := vdiv b (vadds KTu M_EPS) in
  let Kv := matmul_Mv K v in
  let u := vdiv a (vadds Kv M_EPS) in
  (u, v).

(** Lines 82-83. *)
Definition knopp_residual (b : vec) (K : tensor2) (u v : vec) : float :=
  let b_hat := vmul (matmul_vM u K) v in
  tsum (map (fun d => (d * d)%float) (vsub b b_hat)).

(** Line 99. *)
Definition knopp_plan (K : tensor2) (u v : vec) : tensor2 :=
  mkT2 (shape0 K) (shape1 K)
       (zipWith (fun ui row => zipWith (fun kij vj => (ui * kij * vj)%float) row v)
                u (rows K)).

Section KnoppLoop.

Variables (a b : vec) (K : tensor2).
Variables (maxIter : Z) (stopThr : float) (verbose log : bool)
          (eval_freq print_freq : Z).

(** The [while] loop of lines 63-90.  One unit of [fuel] is spent per
    iteration; [Z.to_nat maxIter] units are always enough. *)
Fixpoint knopp_loop (fuel : nat) (st : kstate) : result kstate :=
  match fuel with
  | O => Ok st
  | S fuel' =>
      if fgt (ks_err st) stopThr && (ks_it st <=? maxIter) then
        let upre := ks_u st in
        let vpre := ks_v st in
        let '(u, v) := knopp_update a b K (ks_u st) in
        if any_isnan u || any_isnan v || any_isinf u || any_isinf v then
          Ok (mkK upre vpre (ks_err st) (ks_it st) (ks_errs st))
        else
          do_eval <- flag_and_multiple log (ks_it st) eval_freq ;;
          let err := if do_eval : bool then knopp_residual b K u v else ks_err st in
          let errs := if do_eval : bool then ks_errs st ++ [err] else ks_errs st in
          _ <- flag_and_multiple verbose (ks_it st) print_freq ;;
          knopp_loop fuel' (mkK u v err (ks_it st + 1) errs)
      else Ok st
  end.

End KnoppLoop.

(** Lines 43-48 and 56-57: the state the loop starts from. *)
Definition knopp_init (C : tensor2) (warm_start : option (vec * vec)) : kstate :=
  let '(u, v) :=
    match warm_start with
    | Some uv => uv
    | None => (uniform (shape0 C), uniform (shape1 C))
    end in
  mkK u v 1 1 [].

Definition sinkhorn_knopp (a b : vec) (C : tensor2) (reg : float) (maxIter : Z)
    (stopThr : float) (verbose log : bool) (warm_start : option (vec * vec))
    (eval_freq print_freq : Z) : result (tensor2 * option log_t) :=
  _ <- check_inputs a b C reg ;;
  let K := knopp_kernel C reg in
  st <- knopp_loop a b K maxIter stopThr verbose log eval_freq print_freq
          (Z.to_nat maxIter) (knopp_init C warm_start) ;;
  let u := ks_u st in
  let v := ks_v st in
  let P := knopp_plan K u v in
  if log then
    Ok (P, Some (mkLog (ks_errs st) u v
                   (vscale reg (vlog_eps u)) (vscale reg (vlog_eps v))))
  else Ok (P, None).

(** ** sinkhorn_stabilized *)

Record sstate := mkS {
  ss_u : vec;
  ss_v : vec;
  ss_alpha : vec;
  ss_beta : vec;
  ss_K : tensor2;
  ss_err : float;
  ss_it : Z;
  ss_errs : list float
}.

(** [update_K] (lines 130-134): [K = exp((alpha_i + beta_j + (-C_ij)) / reg)]. *)
Definition update_K (C : tensor2) (reg : float) (alpha beta : vec) : tensor2 :=
  mkT2 (shape0 C) (shape1 C)
       (zipWith (fun ai crow =>
                   zipWith (fun bj c => fexp ((ai + bj + - c) / reg)%float) beta crow)
                alpha (rows C)).

(** [update_P] (lines 136-143). *)
Definition update_P (C : tensor2) (reg : float) (alpha beta u v : vec)
    (ab_updated : bool) : tensor2 :=
  let lu := vlog_eps u in
  let lv := vlog_eps v in
  mkT2 (shape0 C) (shape1 C)
       (zipWith (fun ail crow =>
                   zipWith (fun bjl c =>
                              let x := ((fst ail + fst bjl + - c) / reg)%float in
                              fexp (if ab_updated then x
                                    else (x + snd ail + snd bjl)%float))
                           (combine beta lv) crow)
                (combine alpha lu) (rows C)).

(** [u.fill_(x)]. *)
Definition vfill (u : vec) (x : float) : vec := map (fun _ => x) u.

(** [u.abs().sum()]. *)
Definition abs_sum (u : vec) : float := tsum (map abs u).

(** Lines 177-178. *)
Definition stab_residual (b : vec) (P : tensor2) : float :=
  let b_hat := sum_axis0 P in
  tsum (map (fun d => (d * d)%float) (vsub b b_hat)).

Section StabLoop.

Variables (a b : vec) (C : tensor2) (reg : float).
Variables (maxIter : Z) (tau stopThr : float) (verbose log : bool)
          (eval_freq print_freq : Z).

(** Lines 166-173, applied to the freshly updated [(u, v)]: the new
    [(alpha, beta, u, v, K)] and the flag [ab_updated].  Here [alpha] and
    [beta] are the contents of two tensors of their own, so that the two
    in-place additions do not meet; [absorb_inplace] is the same step on
    tensor objects that may be shared. *)
Definition absorb (alpha beta : vec) (K : tensor2) (u v : vec)
    : vec * vec * vec * vec * tensor2 * bool :=
  if fgt (abs_sum u) tau || fgt (abs_sum v) tau then
    let alpha' := vadd alpha (vscale reg (vlog_eps u)) in
    let beta' := vadd beta (vscale reg (vlog_eps v)) in
    (alpha', beta',
     vfill u (1 / of_nat (shape0 C))%float, vfill v (1 / of_nat (shape1 C))%float,
     update_K C reg alpha' beta', true)
  else (alpha, beta, u, v, K, false).

(** One pass through the body of the [while] loop (lines 160-184). *)
Definition stab_body (st : sstate) : result sstate :=
  let '(u, v) := knopp_update a b (ss_K st) (ss_u st) in
  let '(alpha, beta, u, v, K, ab_updated) :=
    absorb (ss_alpha st) (ss_beta st) (ss_K st) u v in
  do_eval <- flag_and_multiple log (ss_it st) eval_freq ;;
  let err :=
    if do_eval : bool
    then stab_residual b (update_P C reg alpha beta u v ab_updated)
    else ss_err st in
  let errs := if do_eval : bool then ss_errs st ++ [err] else ss_errs st in
  _ <- flag_and_multiple verbose (ss_it st) print_freq ;;
  Ok (mkS u v alpha beta K err (ss_it st + 1) errs).

(** The [while] loop of lines 159-184. *)
Fixpoint stab_loop (fuel : nat) (st : sstate) : result sstate :=
  match fuel with
  | O => Ok st
  | S fuel' =>
      if fgt (ss_err st) stopThr && (ss_it st <=? maxIter) then
        st' <- stab_body st ;;
        stab_loop fuel' st'
      else Ok st
  end.

(** Lines 120-128 and 145-152: the state the loop starts from. *)
Definition stab_init (warm_start : option (vec * vec)) : sstate :=
  let '(alpha, beta) :=
    match warm_start with
    | Some ab => ab
    | None => (zeros (shape0 C), zeros (shape1 C))
    end in
  let u := uniform (shape0 C) in
  let v := uniform (shape1 C) in
  mkS u v alpha beta (update_K C reg alpha beta) 1 1 [].

End StabLoop.

Definition sinkhorn_stabilized (a b : vec) (C : tensor2) (reg : float) (maxIter : Z)
    (tau stopThr : float) (verbose log : bool) (warm_start : option (vec * vec))
    (eval_freq print_freq : Z) : result (tensor2 * option log_t) :=
  _ <- check_inputs a b C reg ;;
  st <- stab_loop a b C reg maxIter tau stopThr verbose log eval_freq print_freq
          (Z.to_nat maxIter) (stab_init C reg warm_start) ;;
  let u := ss_u st in
  let v := ss_v st in
  let P := update_P C reg (ss_alpha st) (ss_beta st) u v false in
  if log then
    Ok (P, Some (mkLog (ss_errs st) u v
                   (vadd (ss_alpha st) (vscale reg (vlog_eps u)))
                   (vadd (ss_beta st) (vscale reg (vlog_eps v)))))
  else Ok (P, None).

(** ** sinkhorn_epsilon_scaling *)

(** The dictionary the controller returns: the trace of gaps and the last
    inner solve's potentials. *)
Record elog_t := mkELog {
  elog_err : list float;
  elog_alpha : vec;
  elog_beta : vec
}.

Record estate := mkE {
  es_running_reg : float;
  es_err : float;
  es_it : Z;
  es_warm : option (vec * vec);
  es_last : option (tensor2 * log_t);
  es_errs : list float
}.

(** [get_reg] (lines 211-218); [scaling_coef] is the enclosing variable. *)
Definition get_reg (scaling_coef scaling_base : float) (it : Z) (reg pre_reg : float)
    : float :=
  if it =? 1 then scaling_coef
  else if ((pre_reg - reg) * scaling_base <? M_EPS)%float then reg
  else ((pre_reg - reg) * scaling_base + reg)%float.

(** Lines 243-245. *)
Definition primal_val (C : tensor2) (reg : float) (P : tensor2) : float :=
  (tsum (entries (tzip PrimFloat.mul C P))
   + reg * tsum (entries (tzip PrimFloat.mul P (tmap flog P)))
   - reg * tsum (entries P))%float.

Definition dual_val (a b : vec) (reg : float) (P : tensor2) (alpha beta : vec) : float :=
  (tsum (vmul alpha a) + tsum (vmul beta b) - reg * tsum (entries P))%float.

Definition duality_gap (a b : vec) (C : tensor2) (reg : float) (P : tensor2)
    (alpha beta : vec) : float :=
  (primal_val C reg P - dual_val a b reg P alpha beta)%float.

Section EpsLoop.

Variables (a b : vec) (C : tensor2) (reg : float).
Variables (maxIter maxInnerIter : Z) (tau scaling_base scaling_coef stopThr : float)
          (verbose log : bool) (eval_freq print_freq : Z).

(** One pass through the body of the outer loop (lines 233-251).  The inner
    solve is asked for its log, so it returns one; [log['err']] on the
    boolean [False] raises. *)
Definition eps_body (st : estate) : result estate :=
  let running_reg := get_reg scaling_coef scaling_base (es_it st) reg (es_running_reg st) in
  r <- sinkhorn_stabilized a b C running_reg maxInnerIter tau stopThr false true
         (es_warm st) eval_freq print_freq ;;
  match r with
  | (P, Some _log) =>
      let warm_start := Some (log_alpha _log, log_beta _log) in
      let err := duality_gap a b C reg P (log_alpha _log) (log_beta _log) in
      if log then
        _ <- flag_and_multiple verbose (es_it st) print_freq ;;
        Ok (mkE running_reg err (es_it st + 1) warm_start (Some (P, _log))
                (es_errs st ++ [err]))
      else Raise TypeError
  | (_, None) => Raise TypeError
  end.

(** The [while] loop of lines 232-251. *)
Fixpoint eps_loop (fuel : nat) (st : estate) : result estate :=
  match fuel with
  | O => Ok st
  | S fuel' =>
      if fgt (es_err st) stopThr && (es_it st <=? maxIter) then
        st' <- eps_body st ;;
        eps_loop fuel' st'
      else Ok st
  end.

End EpsLoop.

(** Lines 220-221. *)
Definition default_scaling_coef (C : tensor2) (reg : float) (scaling_coef : option float)
    : float :=
  match scaling_coef with
  | Some c => c
  | None => (tmax (entries C) + reg)%float
  end.

(** Lines 223-230: the state the outer loop starts from.  The caller's
    [warm_start] is overwritten by [None] before it is ever read. *)
Definition eps_init (scaling_coef : float) (warm_start : option (vec * vec)) : estate :=
  let running_reg := scaling_coef in
  let warm_start : option (vec * vec) := None in
  mkE running_reg 1 1 warm_start None [].

Definition sinkhorn_epsilon_scaling (a b : vec) (C : tensor2) (reg : float)
    (maxIter maxInnerIter : Z) (tau scaling_base : float) (scaling_coef : option float)
    (stopThr : float) (verbose log : bool) (warm_start : option (vec * vec))
    (eval_freq print_freq : Z) : result (tensor2 * option elog_t) :=
  _ <- check_inputs a b C reg ;;
  let scaling_coef := default_scaling_coef C reg scaling_coef in
  st <- eps_loop a b C reg maxIter maxInnerIter tau scaling_base scaling_coef stopThr
          verbose log eval_freq print_freq
          (Z.to_nat maxIter) (eps_init scaling_coef warm_start) ;;
  match es_last st with
  | None => Raise UnboundLocalError
  | Some (P, _log) =>
      if log then Ok (P, Some (mkELog (es_errs st) (log_alpha _log) (log_beta _log)))
      else Ok (P, None)
  end.

End Solvers.

(** ** A reference [exp] and [log]

    Executable approximations of [torch.exp] and [torch.log] (argument
    reduction and a truncated series), accurate to a few units in the last
    place.  They are used to run the solvers on sample inputs; the general
    theorems do not depend on them. *)

Module Reference.

Local Open Scope float_scope.

Definition ln2 : float := 0x1.62e42fefa39efp-1.

Definition float_of_Z (z : Z) : float :=
  match z with
  | Z0 => 0
  | Zpos _ => of_uint63 (Uint63Axioms.of_Z z)
  | Zneg p => - of_uint63 (Uint63Axioms.of_Z (Zpos p))
  end.

(** An integer at most one below [x], for a finite [x]. *)
Definition floorZ (x : float) : Z :=
  match Prim2SF x with
  | S754_finite s m e =>
      let q := if (0 <=? e)%Z then (Zpos m * 2 ^ e)%Z else (Zpos m / 2 ^ (- e))%Z in
      if s then (- q - 1)%Z else q
  | _ => 0%Z
  end.

Fixpoint exp_series (n : nat) (k r : float) : float :=
  match n with
  | O => 1
  | S n' => 1 + r / k * exp_series n' (k + 1) r
  end.

Definition exp_ref (x : float) : float :=
  if is_nan x then nan
  else if 710 <? x then infinity
  else if x <? -746 then 0
  else
    let k := floorZ (x / ln2) in
    let r := x - float_of_Z k * ln2 in
    let y := Z.ldexp (exp_series 25 1 r) k in
    if y <? 0 then 0 else y.

Fixpoint atanh_series (n : nat) (k t2 : float) : float :=
  match n with
  | O => 1 / k
  | S n' => 1 / k + t2 * atanh_series n' (k + 2) t2
  end.

Definition log_ref (x : float) : float :=
  if is_nan x then nan
  else if x <? 0 then nan
  else if x =? 0 then neg_infinity
  else if x =? infinity then infinity
  else
    let (m, e) := Z.frexp x in
    let (m, e) := if m <? 0x1.6a09e667f3bcdp-1 then (2 * m, (e - 1)%Z) else (m, e) in
    let t := (m - 1) / (m + 1) in
    float_of_Z e * ln2 + 2 * (t * atanh_series 20 1 (t * t)).

End Reference.

(** ** Vocabulary of the specification *)

(** Signs are read off the IEEE encoding: [sneg] holds of the negative finite
    numbers and of -infinity, [sclear] of the values whose sign bit is clear
    and of NaN. *)
Definition sneg (X : spec_float) : bool :=
  match X with
  | S754_finite true _ _ | S754_infinity true => true
  | _ => false
  end.

Definition sclear (X : spec_float) : bool :=
  match X with
  | S754_zero s | S754_infinity s | S754_finite s _ _ => negb s
  | S754_nan => true
  end.

(** [x < 0]. *)
Definition is_neg (x : float) : bool := (x <? 0)%float.

(** An entry that is not negative (it may be a zero of either sign, or NaN). *)
Definition nonneg (x : float) : Prop := is_neg x = false.

Definition sign_clear (x : float) : Prop := sclear (Prim2SF x) = true.

Definition nonneg_vec (x : vec) : Prop := Forall nonneg x.
Definition nonneg_mat (M : tensor2) : Prop := Forall nonneg_vec (rows M).

(** What [tmin] returns on a tensor with a negative or NaN entry. *)
Definition nan_or_neg (m : float) : Prop := is_nan m = true \/ is_neg m = true.

(** The inputs the preconditions of section 6 exclude. *)
Definition violates (a b : vec) (C : tensor2) (reg : float) : Prop :=
  (shape0 C < 1)%nat \/ (shape1 C < 1)%nat \/
  length a <> shape0 C \/ length b <> shape1 C \/
  (reg <=? 0)%float = true \/
  Exists (fun x => is_neg x = true) a \/ Exists (fun x => is_neg x = true) b.

Definition precondition_failure {A : Type} (r : result A) : Prop :=
  exists msg, r = Raise (AssertionError msg).

(** The Kernel Builder's contract (section 4.1):
    [K_ij = exp((alpha_i + beta_j - C_ij) / reg)]. *)
Definition spec_kernel (fexp : float -> float) (C : tensor2) (reg : float)
    (alpha beta : vec) : tensor2 :=
  mkT2 (shape0 C) (shape1 C)
       (zipWith (fun ai crow =>
                   zipWith (fun bj cij => fexp ((ai + bj - cij) / reg)%float) beta crow)
                alpha (rows C)).


Section EpsReach.

Variables (fexp flog : float -> float).
Variables (a b : vec) (C : tensor2) (reg : float).
Variables (maxIter maxInnerIter : Z) (tau scaling_base scaling_coef stopThr : float)
          (verbose log : bool) (eval_freq print_freq : Z).

(** The guard of the outer [while]. *)
Definition eps_guard (st : estate) : bool :=
  fgt (es_err st) stopThr && (es_it st <=? maxIter).

(** The states the outer loop passes through. *)
Inductive eps_reach : estate -> Prop :=
| eps_reach_init : forall warm_start, eps_reach (eps_init scaling_coef warm_start)
| eps_reach_step : forall st st',
    eps_reach st ->
    eps_guard st = true ->
    eps_body fexp flog a b C reg maxInnerIter tau scaling_base scaling_coef stopThr
      verbose log eval_freq print_freq st = Ok st' ->
    eps_reach st'.

End EpsReach.

(** The scenario of section 8: two points at distance 1, uniform masses. *)
Module Scenario.
Definition a : vec := [0.5; 0.5]%float.
Definition b : vec := [0.5; 0.5]%float.
Definition C : tensor2 := mkT2 2 2 [[0; 1]; [1; 0]]%float.
Definition reg : float := 0.1%float.
End Scenario.

(** ** The plain solver, as section 4.2 describes it *)

(** [K = exp(-C / reg)]. *)
Definition spec_gibbs (fexp : float -> float) (C : tensor2) (reg : float) : tensor2 :=
  mkT2 (shape0 C) (shape1 C) (map (map (fun c => fexp (- (c / reg))%float)) (rows C)).

Section SpecKnopp.

Variables (a b : vec) (K : tensor2) (uv0 : vec * vec).
Variables (log : bool) (eval_freq : Z).

(** One alternation: [v <- b / (K^T u + eps)], then [u <- a / (K v + eps)]. *)
Definition spec_step (uv : vec * vec) : vec * vec :=
  let v := vdiv b (vadds (matmul_vM (fst uv) K) M_EPS) in
  let u := vdiv a (vadds (matmul_Mv K v) M_EPS) in
  (u, v).

(** The scaling vectors after [n] alternations. *)
Definition spec_iterate (n : nat) : vec * vec := Nat.iter n spec_step uv0.

(** [err = sum((b - b_hat)^2)] with [b_hat = (u^T K) * v]. *)
Definition spec_residual (uv : vec * vec) : float :=
  let b_hat := vmul (matmul_vM (fst uv) K) (snd uv) in
  tsum (map (fun d => (d * d)%float) (vsub b b_hat)).

(** The iterations at which the residual is evaluated: the multiples of
    [eval_freq], when the log is enabled. *)
Definition sampled (n : nat) : bool := log && (Z.of_nat n mod eval_freq =? 0).

(** The value of [err] after [n] iterations (1 at entry), and the residuals
    logged so far. *)
Fixpoint spec_err (n : nat) : float :=
  match n with
  | O => 1%float
  | S k => if sampled (S k) then spec_residual (spec_iterate (S k)) else spec_err k
  end.

Fixpoint spec_trace (n : nat) : list float :=
  match n with
  | O => []
  | S k =>
      if sampled (S k) then spec_trace k ++ [spec_residual (spec_iterate (S k))]
      else spec_trace k
  end.

(** No NaN and no infinity in either vector. *)
Definition finite_pair (uv : vec * vec) : bool :=
  negb (any_isnan (fst uv) || any_isnan (snd uv)
        || any_isinf (fst uv) || any_isinf (snd uv)).

(** The loop state after [n] completed iterations. *)
Definition knopp_inv (n : nat) (st : kstate) : Prop :=
  (ks_u st, ks_v st) = spec_iterate n /\
  ks_it st = Z.of_nat n + 1 /\
  ks_err st = spec_err n /\
  ks_errs st = spec_trace n.

End SpecKnopp.

(** ** Further vocabulary *)

(** What the four assertions ask of the inputs. *)
Definition valid_inputs (a b : vec) (C : tensor2) (reg : float) : Prop :=
  (1 <= shape0 C)%nat /\ (1 <= shape1 C)%nat /\
  shape0 C = length a /\ shape1 C = length b /\
  fgt reg 0 = true /\
  Forall (fun x => fge x 0 = true) a /\ Forall (fun x => fge x 0 = true) b.

(** A 2-d tensor whose rows agree with its shape. *)
Definition wf_tensor (M : tensor2) : Prop :=
  length (rows M) = shape0 M /\ Forall (fun r => length r = shape1 M) (rows M).

(** The vectors and the kernel of a stabilized state have the shapes that
    [C] dictates. *)
Definition stab_shaped (C : tensor2) (st : sstate) : Prop :=
  length (ss_u st) = shape0 C /\ length (ss_v st) = shape1 C /\
  length (ss_alpha st) = shape0 C /\ length (ss_beta st) = shape1 C /\
  wf_tensor (ss_K st) /\ shape0 (ss_K st) = shape0 C /\ shape1 (ss_K st) = shape1 C.

(** A warm start, if any, of two vectors of lengths [na] and [nb]. *)
Definition warm_shaped (C : tensor2) (warm_start : option (vec * vec)) : Prop :=
  match warm_start with
  | Some (x, y) => length x = shape0 C /\ length y = shape1 C
  | None => True
  end.

(** ** sinkhorn, the dispatcher (lines 7-27)

    The warm start a caller passes is a dictionary, or [None]; a solver reads
    the two keys it needs after its assertions, and a missing key raises
    [KeyError].  [str.lower] is a library function, taken as a parameter.
    No extra keyword arguments are passed. *)

Record warm_dict := mkWarm {
  wd_u : option vec;
  wd_v : option vec;
  wd_alpha : option vec;
  wd_beta : option vec
}.

Inductive call_exn :=
| ValueError (msg : string)
| KeyError (key : string)
| Raised (e : exn).

(** What a call of [sinkhorn] evaluates to: the value of the solver it
    dispatched to, or the exception it ends in. *)
Inductive sinkhorn_result :=
| Returned (P : tensor2) (log : option log_t)
| ReturnedScaling (P : tensor2) (log : option elog_t)
| Failed (e : call_exn).

Definition of_solver (r : result (tensor2 * option log_t)) : sinkhorn_result :=
  match r with
  | Ok (P, lg) => Returned P lg
  | Raise e => Failed (Raised e)
  end.

Definition of_scaling (r : result (tensor2 * option elog_t)) : sinkhorn_result :=
  match r with
  | Ok (P, lg) => ReturnedScaling P lg
  | Raise e => Failed (Raised e)
  end.

(** A solver called with a dictionary: the assertions come first, then the
    two reads [warm_start[k1]], [warm_start[k2]], then the rest of the
    solver. *)
Definition with_warm_start (a b : vec) (C : tensor2) (reg : float)
    (warm_start : option warm_dict)
    (k1 k2 : string) (get1 get2 : warm_dict -> option vec)
    (solver : option (vec * vec) -> result (tensor2 * option log_t)) : sinkhorn_result :=
  match warm_start with
  | None => of_solver (solver None)
  | Some d =>
      match check_inputs a b C reg with
      | Raise e => Failed (Raised e)
      | Ok _ =>
          match get1 d with
          | None => Failed (KeyError k1)
          | Some x =>
              match get2 d with
              | None => Failed (KeyError k2)
              | Some y => of_solver (solver (Some (x, y)))
              end
          end
      end
  end.

(** The dictionary as [sinkhorn_epsilon_scaling] receives it; that solver
    reads none of its keys (line 230). *)
Definition scaling_warm_start (warm_start : option warm_dict) : option (vec * vec) :=
  match warm_start with
  | None => None
  | Some d =>
      Some (match wd_alpha d with Some x => x | None => [] end,
            match wd_beta d with Some y => y | None => [] end)
  end.

Section Dispatcher.

Variables (fexp flog : float -> float).
Variable lower : string -> string.

Definition sinkhorn (a b : vec) (C : tensor2) (reg : float) (method : string)
    (maxIter : Z) (tau stopThr : float) (verbose log : bool)
    (warm_start : option warm_dict) (eval_freq print_freq : Z) : sinkhorn_result :=
  if String.eqb (lower method) "sinkhorn" then
    with_warm_start a b C reg warm_start "u" "v" wd_u wd_v
      (fun ws => sinkhorn_knopp fexp flog a b C reg maxIter stopThr verbose log ws
                   eval_freq print_freq)
  else if String.eqb (lower method) "sinkhorn_stabilized" then
    with_warm_start a b C reg warm_start "alpha" "beta" wd_alpha wd_beta
      (fun ws => sinkhorn_stabilized fexp flog a b C reg maxIter tau stopThr verbose log
                   ws eval_freq print_freq)
  else if String.eqb (lower method) "sinkhorn_epsilon_scaling" then
    of_scaling
      (sinkhorn_epsilon_scaling fexp flog a b C reg maxIter 100 tau 0.75%float None
         stopThr false log (scaling_warm_start warm_start) eval_freq print_freq)
  else Failed (ValueError ("Unknown method '" ++ method ++ "'.")).

End Dispatcher.

(** [str.lower] on ASCII text, to run the dispatcher on sample calls. *)
Definition lower_ascii (c : Ascii.ascii) : Ascii.ascii :=
  let n := Ascii.nat_of_ascii c in
  if ((65 <=? n) && (n <=? 90))%nat then Ascii.ascii_of_nat (n + 32) else c.

Fixpoint ascii_lower (s : string) : string :=
  match s with
  | EmptyString => EmptyString
  | String c s' => String (lower_ascii c) (ascii_lower s')
  end.

(** ** sinkhorn_stabilized on tensor objects

    Lines 121-122 bind [alpha] and [beta] to the tensors of the caller's
    warm start, without a copy, and lines 168-169 update them in place.  A
    caller may pass one tensor object in several places (the same tensor
    under both keys, or [a] itself as a potential), and then an update of
    one name is seen under the others.  Here the caller's 1-d tensors are
    the objects of a store and [a], [b] and the warm-start tensors are
    references into it.  Every tensor object has a storage of its own.
    The tensors the solver creates ([u], [v], [K], [P], those of the log)
    are shared with nobody and stay values. *)

Definition tref := nat.

Definition store := list vec.

(** The contents of the object [t]. *)
Definition load (h : store) (t : tref) : vec := nth t h [].

Fixpoint put (h : store) (t : tref) (x : vec) : store :=
  match h, t with
  | [], _ => []
  | _ :: h', O => x :: h'
  | y :: h', S t' => y :: put h' t' x
  end.

(** [t += x]: the object [t] is overwritten; every name bound to it sees the
    sum. *)
Definition iadd (h : store) (t : tref) (x : vec) : store :=
  put h t (vadd (load h t) x).

(** The store and the local variables of a call. *)
Record hstate := mkH {
  hs_store : store;
  hs_u : vec;
  hs_v : vec;
  hs_K : tensor2;
  hs_err : float;
  hs_it : Z;
  hs_errs : list float
}.

Section InPlace.

Variables (fexp flog : float -> float).
Variables (a b : tref) (C : tensor2) (reg : float).
Variables (maxIter : Z) (tau stopThr : float) (verbose log : bool)
          (eval_freq print_freq : Z).

(** The objects the names [alpha] and [beta] are bound to. *)
Variables (alpha beta : tref).

(** Lines 166-173: [alpha] is updated first, then [beta], and the kernel is
    rebuilt from what the two names then hold. *)
Definition absorb_inplace (h : store) (K : tensor2) (u v : vec)
    : store * vec * vec * tensor2 * bool :=
  if fgt (abs_sum u) tau || fgt (abs_sum v) tau then
    let h := iadd h alpha (vscale reg (vlog_eps flog u)) in
    let h := iadd h beta (vscale reg (vlog_eps flog v)) in
    (h,
     vfill u (1 / of_nat (shape0 C))%float, vfill v (1 / of_nat (shape1 C))%float,
     update_K fexp C reg (load h alpha) (load h beta), true)
  else (h, u, v, K, false).

(** One pass through the body of the [while] loop (lines 160-184); [a] and
    [b] are read from the store as it is when the pass starts. *)
Definition stab_body_inplace (st : hstate) : result hstate :=
  let h := hs_store st in
  let '(u, v) := knopp_update (load h a) (load h b) (hs_K st) (hs_u st) in
  let '(h, u, v, K, ab_updated) := absorb_inplace h (hs_K st) u v in
  do_eval <- flag_and_multiple log (hs_it st) eval_freq ;;
  let err :=
    if do_eval : bool
    then stab_residual (load h b)
           (update_P fexp flog C reg (load h alpha) (load h beta) u v ab_updated)
    else hs_err st in
  let errs := if do_eval : bool then hs_errs st ++ [err] else hs_errs st in
  _ <- flag_and_multiple verbose (hs_it st) print_freq ;;
  Ok (mkH h u v K err (hs_it st + 1) errs).

(** The [while] loop of lines 159-184. *)
Fixpoint stab_loop_inplace (fuel : nat) (st : hstate) : result hstate :=
  match fuel with
  | O => Ok st
  | S fuel' =>
      if fgt (hs_err st) stopThr && (hs_it st <=? maxIter) then
        st' <- stab_body_inplace st ;;
        stab_loop_inplace fuel' st'
      else Ok st
  end.

End InPlace.

(** Lines 120-125: with a warm start the two names are bound to the caller's
    tensors; without one, to two new tensors of zeros. *)
Definition bind_potentials (C : tensor2) (h : store) (warm_start : option (tref * tref))
    : tref * tref * store :=
  match warm_start with
  | Some (alpha, beta) => (alpha, beta, h)
  | None =>
      (length h, S (length h), h ++ [zeros (shape0 C); zeros (shape1 C)])
  end.

(** The call: its value, and the store it leaves to the caller. *)
Definition sinkhorn_stabilized_inplace (fexp flog : float -> float) (h : store)
    (a b : tref) (C : tensor2) (reg : float) (maxIter : Z) (tau stopThr : float)
    (verbose log : bool) (warm_start : option (tref * tref)) (eval_freq print_freq : Z)
    : result (tensor2 * option log_t * store) :=
  _ <- check_inputs (load h a) (load h b) C reg ;;
  let '(alpha, beta, h) := bind_potentials C h warm_start in
  let u := uniform (shape0 C) in
  let v := uniform (shape1 C) in
  let K := update_K fexp C reg (load h alpha) (load h beta) in
  st <- stab_loop_inplace fexp flog a b C reg maxIter tau stopThr verbose log
          eval_freq print_freq alpha beta (Z.to_nat maxIter) (mkH h u v K 1 1 []) ;;
  let h := hs_store st in
  let u := hs_u st in
  let v := hs_v st in
  let P := update_P fexp flog C reg (load h alpha) (load h beta) u v false in
  if log then
    Ok (P, Some (mkLog (hs_errs st) u v
                   (vadd (load h alpha) (vscale reg (vlog_eps flog u)))
                   (vadd (load h beta) (vscale reg (vlog_eps flog v)))), h)
  else Ok (P, None, h).

(** The value of a call, without the store it leaves. *)
Definition forget {A : Type} (r : result (A * store)) : result A :=
  match r with
  | Ok (x, _) => Ok x
  | Raise e => Raise e
  end.

(** The warm-start tensors are two objects, and neither is [a] or [b]. *)
Definition separate (h : store) (a b : tref) (warm_start : option (tref * tref)) : Prop :=
  (a < length h)%nat /\ (b < length h)%nat /\
  match warm_start with
  | Some (alpha, beta) =>
      (alpha < length h)%nat /\ (beta < length h)%nat /\
      alpha <> beta /\ alpha <> a /\ alpha <> b /\ beta <> a /\ beta <> b
  | None => True
  end.

(** The contents of the warm-start tensors. *)
Definition warm_values (h : store) (warm_start : option (tref * tref))
    : option (vec * vec) :=
  match warm_start with
  | Some (alpha, beta) => Some (load h alpha, load h beta)
  | None => None
  end.

(** A state of the solver on objects and a state of the solver on values
    that hold the same tensors. *)
Definition same_tensors (a b alpha beta : tref) (a0 b0 : vec) (hs : hstate) (ss : sstate)
    : Prop :=
  load (hs_store hs) a = a0 /\ load (hs_store hs) b = b0 /\
  load (hs_store hs) alpha = ss_alpha ss /\ load (hs_store hs) beta = ss_beta ss /\
  hs_u hs = ss_u ss /\ hs_v hs = ss_v ss /\ hs_K hs = ss_K ss /\
  hs_err hs = ss_err ss /\ hs_it hs = ss_it ss /\ hs_errs hs = ss_errs ss.

(** Two runs that correspond: both raise the same exception, or both end in
    states that hold the same tensors, the store [h] having changed at
    [alpha] and [beta] only. *)
Definition runs_agree (a b alpha beta : tref) (a0 b0 : vec) (h : store)
    (r : result hstate) (r' : result sstate) : Prop :=
  match r, r' with
  | Ok hs, Ok ss =>
      same_tensors a b alpha beta a0 b0 hs ss /\
      length (hs_store hs) = length h /\
      (forall t, t <> alpha -> t <> beta -> load (hs_store hs) t = load h t)
  | Raise e, Raise e' => e = e'
  | _, _ => False
  end.

(** * Facts about binary64 comparisons *)

Lemma Prim2SF_zero : Prim2SF 0 = S754_zero false.
Proof. reflexivity. Qed.

Lemma is_neg_spec x : is_neg x = sneg (Prim2SF x).
Proof.
  unfold is_neg. rewrite ltb_spec, Prim2SF_zero.
  destruct (Prim2SF x) as [[]|[]| |[] ? ?]; reflexivity.
Qed.

Lemma fge0_spec x :
  fge x 0 = match Prim2SF x with S754_nan => false | X => negb (sneg X) end.
Proof.
  unfold fge. rewrite leb_spec, Prim2SF_zero.
  destruct (Prim2SF x) as [[]|[]| |[] ? ?]; reflexivity.
Qed.

Lemma SFcompare_refl X : X <> S754_nan -> SFcompare X X = Some Eq.
Proof.
  destruct X as [[]|[]| |[] m e]; simpl; try congruence; intros _;
    rewrite Z.compare_refl, Pos.compare_cont_refl; reflexivity.
Qed.

Lemma is_nan_spec x : is_nan x = true <-> Prim2SF x = S754_nan.
Proof.
  unfold is_nan. rewrite eqb_spec. unfold SFeqb. split.
  - intros H. destruct (Prim2SF x) eqn:E; try reflexivity;
      rewrite SFcompare_refl in H by congruence; discriminate.
  - intros ->. reflexivity.
Qed.

Lemma fgt0_of_le0 reg : (reg <=? 0)%float = true -> fgt reg 0 = false.
Proof.
  unfold fgt. rewrite leb_spec, ltb_spec, Prim2SF_zero. unfold SFleb, SFltb.
  destruct (Prim2SF reg) as [[]|[]| |[] ? ?]; simpl; congruence.
Qed.

Lemma ltb_neg_left x acc :
  (x <? acc)%float = true -> is_neg acc = true -> is_neg x = true.
Proof.
  rewrite !is_neg_spec, ltb_spec. unfold SFltb.
  destruct (Prim2SF x) as [[]|[]| |[] ? ?], (Prim2SF acc) as [[]|[]| |[] ? ?];
    simpl; congruence.
Qed.

Lemma nltb_neg_right x acc :
  (x <? acc)%float = false -> is_nan acc = false -> is_neg x = true ->
  is_neg acc = true.
Proof.
  rewrite !is_neg_spec, ltb_spec. unfold SFltb. intros H Hn.
  assert (Prim2SF acc <> S754_nan) as Hn'.
  { intros E. apply is_nan_spec in E. congruence. }
  revert H Hn'.
  destruct (Prim2SF x) as [[]|[]| |[] ? ?], (Prim2SF acc) as [[]|[]| |[] ? ?];
    simpl; congruence.
Qed.

(** ** [tmin] on a tensor with a negative entry *)

Lemma fmin_bad_acc acc x : nan_or_neg acc -> nan_or_neg (fmin acc x).
Proof.
  unfold fmin, nan_or_neg. intros [H|H].
  - rewrite H. auto.
  - destruct (is_nan acc) eqn:Ea; auto.
    destruct (is_nan x) eqn:Ex; auto.
    destruct (x <? acc)%float eqn:El; auto.
    right. eapply ltb_neg_left; eauto.
Qed.

Lemma fmin_bad_x acc x : is_neg x = true -> nan_or_neg (fmin acc x).
Proof.
  unfold fmin, nan_or_neg. intros H.
  destruct (is_nan acc) eqn:Ea; auto.
  destruct (is_nan x) eqn:Ex; auto.
  destruct (x <? acc)%float eqn:El; auto.
  right. eapply nltb_neg_right; eauto.
Qed.

Lemma fold_fmin_bad l : forall acc, nan_or_neg acc -> nan_or_neg (fold_left fmin l acc).
Proof. induction l; simpl; intros; auto using fmin_bad_acc. Qed.

Lemma fold_fmin_exists l : forall acc,
  Exists (fun x => is_neg x = true) l -> nan_or_neg (fold_left fmin l acc).
Proof.
  induction l as [|y l IH]; simpl; intros acc H; inversion H; subst.
  - apply fold_fmin_bad, fmin_bad_x; assumption.
  - apply IH; assumption.
Qed.

Lemma nan_or_neg_not_ge0 m : nan_or_neg m -> fge m 0 = false.
Proof.
  rewrite fge0_spec. intros [H|H].
  - apply is_nan_spec in H. rewrite H. reflexivity.
  - rewrite is_neg_spec in H.
    destruct (Prim2SF m); try reflexivity; rewrite H; reflexivity.
Qed.

Lemma tmin_negative l :
  Exists (fun x => is_neg x = true) l -> fge (tmin l) 0 = false.
Proof.
  intros H. apply nan_or_neg_not_ge0. destruct l as [|x0 l]; [inversion H|].
  simpl. inversion H; subst.
  - apply fold_fmin_bad. right; assumption.
  - apply fold_fmin_exists; assumption.
Qed.

(** ** Signed arithmetic *)

Lemma SFadd_opp X Y : SF64add X (SFopp Y) = SF64sub X Y.
Proof.
  unfold SF64add, SF64sub.
  destruct X as [[]|[]| |[] mx ex], Y as [[]|[]| |[] my ey]; reflexivity.
Qed.

Lemma fadd_opp x y : (x + - y)%float = (x - y)%float.
Proof.
  apply Prim2SF_inj. rewrite add_spec, opp_spec, sub_spec. apply SFadd_opp.
Qed.



(** ** List helpers *)

Lemma zipWith_map_r {A B B' C : Type} (f : A -> B' -> C) (g : B -> B') x y :
  zipWith f x (map g y) = zipWith (fun a b => f a (g b)) x y.
Proof.
  revert y. induction x as [|a x IH]; intros [|b y]; simpl; try reflexivity.
  now rewrite IH.
Qed.

Lemma zipWith_ext {A B C : Type} (f g : A -> B -> C) x y :
  (forall a b, f a b = g a b) -> zipWith f x y = zipWith g x y.
Proof.
  intros H. revert y. induction x as [|a x IH]; intros [|b y]; simpl; try reflexivity.
  now rewrite H, IH.
Qed.

Lemma map_const_repeat {A B : Type} (c : B) (l : list A) :
  map (fun _ => c) l = repeat c (length l).
Proof. induction l; simpl; congruence. Qed.

Lemma SFopp_round_aux s m e l :
  SFopp (binary_round_aux prec emax s m e l) = binary_round_aux prec emax (negb s) m e l.
Proof.
  unfold binary_round_aux.
  destruct (shr_fexp prec emax m e l) as [mrs e'].
  destruct (shr_fexp prec emax _ e' loc_Exact) as [mrs' e''].
  destruct (shr_m mrs'); try reflexivity.
  destruct (Z.leb e'' (emax - prec)); reflexivity.
Qed.

Lemma SFdiv_opp_r X Y : SF64div X (SFopp Y) = SFopp (SF64div X Y).
Proof.
  unfold SF64div.
  destruct X as [[]|[]| |sx mx ex], Y as [[]|[]| |sy my ey]; try reflexivity;
    try (destruct sx; reflexivity).
  cbn [SFopp SFdiv].
  destruct (SFdiv_core_binary prec emax (Z.pos mx) ex (Z.pos my) ey) as [[mz ez] lz].
  rewrite SFopp_round_aux. destruct sx, sy; reflexivity.
Qed.

Lemma fdiv_opp_r x y : (x / - y)%float = (- (x / y))%float.
Proof.
  apply Prim2SF_inj. rewrite div_spec, !opp_spec, div_spec. apply SFdiv_opp_r.
Qed.

(** * Preconditions *)

Lemma check_inputs_violates a b C reg :
  violates a b C reg -> precondition_failure (check_inputs a b C reg).
Proof.
  unfold violates, precondition_failure, check_inputs, assert, bind.
  intros H.
  destruct ((1 <=? shape0 C)%nat && (1 <=? shape1 C)%nat) eqn:E1; [|eauto].
  apply andb_prop in E1. destruct E1 as [E1a E1b].
  apply Nat.leb_le in E1a, E1b.
  destruct ((shape0 C =? length a)%nat && (shape1 C =? length b)%nat) eqn:E2; [|eauto].
  apply andb_prop in E2. destruct E2 as [E2a E2b].
  apply Nat.eqb_eq in E2a, E2b.
  destruct (fgt reg 0) eqn:E3; [|eauto].
  destruct H as [H|[H|[H|[H|[H|[H|H]]]]]]; try lia.
  - apply fgt0_of_le0 in H. congruence.
  - rewrite (tmin_negative a H). simpl. eauto.
  - rewrite (tmin_negative b H). rewrite andb_false_r. eauto.
Qed.

Lemma bind_precondition_failure {A B : Type} (r : result A) (k : A -> result B) :
  precondition_failure r -> precondition_failure (bind r k).
Proof. intros [msg ->]. exists msg. reflexivity. Qed.

(** C5: an input that violates a precondition makes each of the three
    solvers fail with an assertion error, for every choice of the remaining
    arguments; no loop iteration runs and no plan is returned. *)
Theorem precondition_violation_fails :
  forall fexp flog a b C reg,
    violates a b C reg ->
    (forall maxIter stopThr verbose log warm_start eval_freq print_freq,
        precondition_failure
          (sinkhorn_knopp fexp flog a b C reg maxIter stopThr verbose log warm_start
             eval_freq print_freq)) /\
    (forall maxIter tau stopThr verbose log warm_start eval_freq print_freq,
        precondition_failure
          (sinkhorn_stabilized fexp flog a b C reg maxIter tau stopThr verbose log
             warm_start eval_freq print_freq)) /\
    (forall maxIter maxInnerIter tau scaling_base scaling_coef stopThr verbose log
            warm_start eval_freq print_freq,
        precondition_failure
          (sinkhorn_epsilon_scaling fexp flog a b C reg maxIter maxInnerIter tau
             scaling_base scaling_coef stopThr verbose log warm_start eval_freq
             print_freq)).
Proof.
  intros fexp flog a b C reg H.
  pose proof (check_inputs_violates a b C reg H) as Hc.
  repeat split; intros;
    [unfold sinkhorn_knopp | unfold sinkhorn_stabilized | unfold sinkhorn_epsilon_scaling];
    apply bind_precondition_failure; exact Hc.
Qed.

(** A negative mass in [a] is rejected by each solver. *)
Lemma precondition_violation_fails_witness :
  violates [(-1)%float; 2%float] [1%float] (mkT2 2 1 [[0%float]; [0%float]]) 1%float /\
  precondition_failure
    (sinkhorn_knopp Reference.exp_ref Reference.log_ref
       [(-1)%float; 2%float] [1%float] (mkT2 2 1 [[0%float]; [0%float]]) 1%float
       10 1e-9%float false true None 10 200).
Proof.
  assert (violates [(-1)%float; 2%float] [1%float]
            (mkT2 2 1 [[0%float]; [0%float]]) 1%float) as V.
  { unfold violates. do 5 right. left. constructor. reflexivity. }
  split; [exact V|].
  exact (proj1 (precondition_violation_fails Reference.exp_ref Reference.log_ref
                  _ _ _ _ V) 10 1e-9%float false true None 10 200).
Defined.

(** * Initial states *)


(** With its log requested, the stabilized solver returns one. *)
Lemma stabilized_returns_log fexp flog a b C reg maxIter tau stopThr verbose ws ef pf r :
  sinkhorn_stabilized fexp flog a b C reg maxIter tau stopThr verbose true ws ef pf = Ok r ->
  exists lg, snd r = Some lg.
Proof.
  unfold sinkhorn_stabilized, bind.
  destruct (check_inputs a b C reg); [|discriminate].
  destruct (stab_loop _ _ _ _ _ _ _ _ _ _ _ _ _ _ _); [|discriminate].
  intros H. inversion H. simpl. eauto.
Qed.

(** * The epsilon-scaling controller *)

(** C10: the controller never reads the warm start it is given: two calls
    that differ only in it return the same result, the outer loop starts
    with no warm start, and so the first inner solve starts from zero
    potentials. *)
Theorem epsilon_scaling_ignores_warm_start :
  forall fexp flog a b C reg maxIter maxInnerIter tau scaling_base scaling_coef stopThr
         verbose log eval_freq print_freq ws1 ws2,
    sinkhorn_epsilon_scaling fexp flog a b C reg maxIter maxInnerIter tau scaling_base
      scaling_coef stopThr verbose log ws1 eval_freq print_freq =
    sinkhorn_epsilon_scaling fexp flog a b C reg maxIter maxInnerIter tau scaling_base
      scaling_coef stopThr verbose log ws2 eval_freq print_freq /\
    let st0 := eps_init (default_scaling_coef C reg scaling_coef) ws1 in
    es_warm st0 = None /\
    forall running_reg,
      ss_alpha (stab_init fexp C running_reg (es_warm st0)) = zeros (shape0 C) /\
      ss_beta (stab_init fexp C running_reg (es_warm st0)) = zeros (shape1 C).
Proof.
  intros. split; [reflexivity|]. simpl. split; [reflexivity|].
  intros; split; reflexivity.
Qed.

(** C9: with [log=False], as soon as the outer loop is entered the call
    raises: once the assertions and the first inner solve have passed, the
    append to [log['err']] raises [TypeError]; in no case is a plan
    returned. *)
Theorem epsilon_scaling_without_log_raises :
  forall fexp flog a b C reg maxIter maxInnerIter tau scaling_base scaling_coef stopThr
         verbose warm_start eval_freq print_freq,
    fgt 1 stopThr = true ->
    1 <= maxIter ->
    let call :=
      sinkhorn_epsilon_scaling fexp flog a b C reg maxIter maxInnerIter tau scaling_base
        scaling_coef stopThr verbose false warm_start eval_freq print_freq in
    call =
      (_ <- check_inputs a b C reg ;;
       _ <- sinkhorn_stabilized fexp flog a b C (default_scaling_coef C reg scaling_coef)
              maxInnerIter tau stopThr false true None eval_freq print_freq ;;
       Raise TypeError) /\
    (forall r, call <> Ok r).
Proof.
  intros fexp flog a b C reg maxIter maxInnerIter tau scaling_base scaling_coef stopThr
         verbose warm_start eval_freq print_freq Hthr Hmax call.
  assert (call =
      (_ <- check_inputs a b C reg ;;
       _ <- sinkhorn_stabilized fexp flog a b C (default_scaling_coef C reg scaling_coef)
              maxInnerIter tau stopThr false true None eval_freq print_freq ;;
       Raise TypeError)) as Hcall.
  { subst call. unfold sinkhorn_epsilon_scaling, bind.
    destruct (check_inputs a b C reg); [|reflexivity].
    destruct (Z.to_nat maxIter) as [|fuel] eqn:Ef; [lia|].
    cbn [eps_loop eps_init es_err es_it]. rewrite Hthr.
    replace (1 <=? maxIter) with true by (symmetry; apply Z.leb_le; lia).
    cbn [andb bind]. unfold eps_body, bind. cbn [es_it es_running_reg es_warm].
    unfold get_reg. cbn [Z.eqb Pos.eqb].
    destruct (sinkhorn_stabilized _ _ _ _ _ _ _ _ _ _ _ _ _ _) as [[P lg]|e] eqn:Es;
      [|reflexivity].
    destruct (stabilized_returns_log _ _ _ _ _ _ _ _ _ _ _ _ _ _ Es) as [l Hl].
    simpl in Hl. subst lg. reflexivity. }
  split; [exact Hcall|].
  intros r. rewrite Hcall. unfold bind.
  destruct (check_inputs a b C reg); [|discriminate].
  destruct (sinkhorn_stabilized _ _ _ _ _ _ _ _ _ _ _ _ _ _); discriminate.
Qed.

(** The scenario of the specification, with the log switched off. *)
Lemma epsilon_scaling_without_log_raises_witness :
  sinkhorn_epsilon_scaling Reference.exp_ref Reference.log_ref
    [0.5; 0.5]%float [0.5; 0.5]%float
    (mkT2 2 2 [[0; 1]; [1; 0]]%float) 0.1%float 5 100 1e3%float 0.75%float None
    1e-9%float false false None 10 200
  = Raise TypeError.
Proof.
  rewrite (proj1 (epsilon_scaling_without_log_raises
                    Reference.exp_ref Reference.log_ref
                    [0.5; 0.5]%float [0.5; 0.5]%float
                    (mkT2 2 2 [[0; 1]; [1; 0]]%float) 0.1%float 5 100 1e3%float
                    0.75%float None 1e-9%float false None 10 200
                    eq_refl ltac:(lia))).
  vm_compute. reflexivity.
Defined.
(** * The stabilized solver *)

Lemma update_K_spec fexp C reg alpha beta :
  update_K fexp C reg alpha beta = spec_kernel fexp C reg alpha beta.
Proof.
  unfold update_K, spec_kernel. f_equal.
  apply zipWith_ext; intros ai crow. apply zipWith_ext; intros bj c.
  now rewrite fadd_opp.
Qed.

(** C2 fails when a caller passes one tensor under both keys of the warm
    start.  With [a = b = [1]], [C = [[1000]]], [reg = 1] and one iteration,
    the kernel underflows, the first update gives [u = v = [1e16]] and the
    norms exceed [tau = 1e3]; the increments [reg * log(u + eps)] and
    [reg * log(v + eps)] are both about 36.84.  Called with two tensors of
    zeros, the solver leaves 36.84 in each, as C2 says.  Called with one
    tensor of zeros under both keys, it adds both increments to that tensor:
    [alpha] and [beta] are 73.68 after the pass, not 36.84, in the log that
    is returned and in the tensor of the caller.  The store holds [a], [b]
    and then the tensors of the warm start. *)
Theorem stabilized_absorbs_twice_into_shared_tensor :
  let C := mkT2 1 1 [[1000%float]] in
  let solve h warm_start :=
    sinkhorn_stabilized_inplace Reference.exp_ref Reference.log_ref h 0%nat 1%nat C
      1%float 1 1e3%float 1e-9%float false true warm_start 10 200 in
  let K := update_K Reference.exp_ref C 1%float [0%float] [0%float] in
  let u := fst (knopp_update [1%float] [1%float] K (uniform 1)) in
  let v := snd (knopp_update [1%float] [1%float] K (uniform 1)) in
  let between (lo x hi : float) := ((lo <? x) && (x <? hi))%float = true in
  fgt (abs_sum u) 1e3%float = true /\
  (exists da db,
      vscale 1%float (vlog_eps Reference.log_ref u) = [da] /\
      vscale 1%float (vlog_eps Reference.log_ref v) = [db] /\
      between 36.84%float da 36.85%float /\ between 36.84%float db 36.85%float) /\
  (exists P lg al be,
      solve [[1%float]; [1%float]; [0%float]; [0%float]] (Some (2%nat, 3%nat))
      = Ok (P, Some lg, [[1%float]; [1%float]; [al]; [be]]) /\
      log_alpha lg = [al] /\ log_beta lg = [be] /\
      between 36.84%float al 36.85%float /\ between 36.84%float be 36.85%float) /\
  (exists P lg t,
      solve [[1%float]; [1%float]; [0%float]] (Some (2%nat, 2%nat))
      = Ok (P, Some lg, [[1%float]; [1%float]; [t]]) /\
      log_alpha lg = [t] /\ log_beta lg = [t] /\
      between 73.68%float t 73.69%float).
Proof.
  cbv zeta. split; [vm_compute; reflexivity|]. split; [|split].
  - do 2 eexists. split; [vm_compute; reflexivity|]. split; [vm_compute; reflexivity|].
    split; vm_compute; reflexivity.
  - do 4 eexists. split; [vm_compute; reflexivity|].
    split; [reflexivity|]. split; [reflexivity|]. split; vm_compute; reflexivity.
  - do 3 eexists. split; [vm_compute; reflexivity|].
    split; [reflexivity|]. split; [reflexivity|]. vm_compute; reflexivity.
Qed.

Section EpsFacts.

Variables (fexp flog : float -> float).
Variables (a b : vec) (C : tensor2) (reg : float).
Variables (maxIter maxInnerIter : Z) (tau scaling_base scaling_coef stopThr : float)
          (verbose log : bool) (eval_freq print_freq : Z).

Let body := eps_body fexp flog a b C reg maxInnerIter tau scaling_base scaling_coef
              stopThr verbose log eval_freq print_freq.

(** What one pass of the outer loop leaves behind. *)
Lemma eps_body_ok st st' :
  body st = Ok st' ->
  let running_reg := get_reg scaling_coef scaling_base (es_it st) reg (es_running_reg st) in
  exists P lg,
    sinkhorn_stabilized fexp flog a b C running_reg maxInnerIter tau stopThr false true
      (es_warm st) eval_freq print_freq = Ok (P, Some lg) /\
    log = true /\
    es_running_reg st' = running_reg /\
    es_it st' = es_it st + 1 /\
    es_last st' = Some (P, lg) /\
    es_warm st' = Some (log_alpha lg, log_beta lg) /\
    es_err st' = duality_gap flog a b C reg P (log_alpha lg) (log_beta lg) /\
    es_errs st' = es_errs st ++ [es_err st'].
Proof.
  intros H running_reg. subst running_reg body. unfold eps_body, bind in H.
  destruct (sinkhorn_stabilized _ _ _ _ _ _ _ _ _ _ _ _ _ _) as [[P [lg|]]|e];
    try discriminate.
  destruct log; [|discriminate].
  destruct (flag_and_multiple verbose (es_it st) print_freq); [|discriminate].
  inversion H; subst st'. exists P, lg. cbn. repeat split; reflexivity.
Qed.

Let loop := eps_loop fexp flog a b C reg maxIter maxInnerIter tau scaling_base
              scaling_coef stopThr verbose log eval_freq print_freq.
Let reach := eps_reach fexp flog a b C reg maxIter maxInnerIter tau scaling_base
               scaling_coef stopThr verbose log eval_freq print_freq.
Let guard := eps_guard maxIter stopThr.

Lemma eps_loop_reach fuel : forall st st',
  reach st -> loop fuel st = Ok st' -> reach st'.
Proof.
  subst loop reach. induction fuel as [|fuel IH]; simpl; intros st st' Hr H.
  - inversion H; subst; assumption.
  - destruct (fgt (es_err st) stopThr && (es_it st <=? maxIter)) eqn:G.
    + unfold bind in H.
      destruct (eps_body _ _ _ _ _ _ _ _ _ _ _ _ _ _ _ st) as [st1|e] eqn:B;
        [|discriminate].
      eapply IH; [|exact H]. eapply eps_reach_step; eauto.
    + inversion H; subst; assumption.
Qed.

(** The fuel given by the solver lets the loop run until its guard fails. *)
Lemma eps_loop_exit fuel : forall st st',
  loop fuel st = Ok st' -> maxIter < es_it st + Z.of_nat fuel -> guard st' = false.
Proof.
  subst loop guard. unfold eps_guard.
  induction fuel as [|fuel IH]; simpl eps_loop; intros st st' H Hf.
  - inversion H; subst. apply andb_false_iff. right. apply Z.leb_gt. lia.
  - destruct (fgt (es_err st) stopThr && (es_it st <=? maxIter)) eqn:G.
    + unfold bind in H.
      destruct (eps_body _ _ _ _ _ _ _ _ _ _ _ _ _ _ _ st) as [st1|e] eqn:B;
        [|discriminate].
      apply (IH st1 st' H).
      destruct (eps_body_ok st st1 B) as (P & lg & _ & _ & _ & Hit & _).
      rewrite Hit. lia.
    + inversion H; subst. exact G.
Qed.



(** The gap of the latest inner solve is the current [err], and every
    earlier gap exceeded [stopThr]. *)
Lemma eps_reach_gap st :
  reach st ->
  es_it st = 1 + Z.of_nat (length (es_errs st)) /\
  last (es_errs st) 1%float = es_err st /\
  Forall (fun e => fgt e stopThr = true) (removelast (es_errs st)) /\
  match es_last st with
  | None => es_errs st = []
  | Some (P, lg) =>
      es_err st = duality_gap flog a b C reg P (log_alpha lg) (log_beta lg) /\
      log = true /\
      exists running_reg ws,
        sinkhorn_stabilized fexp flog a b C running_reg maxInnerIter tau stopThr
          false true ws eval_freq print_freq = Ok (P, Some lg)
  end.
Proof.
  subst reach. induction 1 as [ws|st st' Hr (IHit & IHlast & IHall & IH) G B].
  - cbn. repeat split; constructor.
  - destruct (eps_body_ok st st' B)
      as (P & lg & Hs & Hl & _ & Hit & Hlast & _ & He & Hes).
    rewrite Hlast, Hit, Hes, length_app, last_last, removelast_last. cbn [length].
    repeat split; try assumption; try lia; [|eauto].
    destruct (es_errs st) as [|e0 l] eqn:El using rev_ind; [constructor|].
    rewrite removelast_last in IHall. rewrite last_last in IHlast.
    apply Forall_app. split; [assumption|]. constructor; [|constructor].
    unfold eps_guard in G. apply andb_prop in G. rewrite IHlast. tauto.
Qed.


End EpsFacts.



(** A plan returned by the controller is the plan of an inner solve. *)
Lemma eps_scaling_plan_of_inner_solve :
  forall fexp flog a b C reg maxIter maxInnerIter tau scaling_base scaling_coef stopThr
         verbose log warm_start eval_freq print_freq P olog,
    sinkhorn_epsilon_scaling fexp flog a b C reg maxIter maxInnerIter tau scaling_base
      scaling_coef stopThr verbose log warm_start eval_freq print_freq = Ok (P, olog) ->
    exists running_reg ws ilog,
      sinkhorn_stabilized fexp flog a b C running_reg maxInnerIter tau stopThr
        false true ws eval_freq print_freq = Ok (P, Some ilog).
Proof.
  intros fexp flog a b C reg maxIter maxInnerIter tau scaling_base scaling_coef stopThr
         verbose log warm_start eval_freq print_freq P olog H.
  unfold sinkhorn_epsilon_scaling, bind in H.
  destruct (check_inputs a b C reg); [|discriminate].
  destruct (eps_loop _ _ _ _ _ _ _ _ _ _ _ _ _ _ _ _ _ _) as [st|e] eqn:L; [|discriminate].
  pose proof (eps_loop_reach _ _ _ _ _ _ _ _ _ _ _ _ _ _ _ _ _ _ st
                (eps_reach_init _ _ _ _ _ _ _ _ _ _ _ _ _ _ _ _ warm_start) L) as R.
  apply eps_reach_gap in R. destruct R as (_ & _ & _ & Hg).
  destruct (es_last st) as [[P0 ilog]|]; [|discriminate].
  destruct Hg as (_ & _ & r & ws & Hin).
  destruct log; inversion H; subst; eauto.
Qed.

(** X19: what drives the outer loop is the primal-dual gap at the target
    [reg], never a marginal residual.  Whenever the controller returns, the
    plan and potentials come from its last inner stabilized solve; [err] is
    [sum(C*P) + reg*sum(P*log P) - reg*sum(P)] minus
    [sum(alpha*a) + sum(beta*b) - reg*sum(P)] for them; it is the last entry
    of the logged trace, every earlier entry exceeded [stopThr], and the
    loop was left because the test [err > stopThr] failed or because
    [maxIter] passes were made. *)
Theorem epsilon_scaling_stops_on_gap :
  forall fexp flog a b C reg maxIter maxInnerIter tau scaling_base scaling_coef stopThr
         verbose log warm_start eval_freq print_freq P olog,
    sinkhorn_epsilon_scaling fexp flog a b C reg maxIter maxInnerIter tau scaling_base
      scaling_coef stopThr verbose log warm_start eval_freq print_freq = Ok (P, olog) ->
    exists st ilog,
      eps_reach fexp flog a b C reg maxIter maxInnerIter tau scaling_base
        (default_scaling_coef C reg scaling_coef) stopThr verbose log eval_freq
        print_freq st /\
      es_last st = Some (P, ilog) /\
      (exists running_reg ws,
          sinkhorn_stabilized fexp flog a b C running_reg maxInnerIter tau stopThr
            false true ws eval_freq print_freq = Ok (P, Some ilog)) /\
      olog = Some (mkELog (es_errs st) (log_alpha ilog) (log_beta ilog)) /\
      es_err st =
        ((tsum (entries (tzip PrimFloat.mul C P))
          + reg * tsum (entries (tzip PrimFloat.mul P (tmap flog P)))
          - reg * tsum (entries P))
         - (tsum (vmul (log_alpha ilog) a) + tsum (vmul (log_beta ilog) b)
            - reg * tsum (entries P)))%float /\
      last (es_errs st) 1%float = es_err st /\
      Forall (fun e => fgt e stopThr = true) (removelast (es_errs st)) /\
      es_it st = 1 + Z.of_nat (length (es_errs st)) /\
      (fgt (es_err st) stopThr = false \/ maxIter < es_it st).
Proof.
  intros fexp flog a b C reg maxIter maxInnerIter tau scaling_base scaling_coef stopThr
         verbose log warm_start eval_freq print_freq P olog H.
  unfold sinkhorn_epsilon_scaling, bind in H.
  destruct (check_inputs a b C reg); [|discriminate].
  destruct (eps_loop _ _ _ _ _ _ _ _ _ _ _ _ _ _ _ _ _ _) as [st|e] eqn:L; [|discriminate].
  pose proof (eps_loop_reach _ _ _ _ _ _ _ _ _ _ _ _ _ _ _ _ _ _ st
                (eps_reach_init _ _ _ _ _ _ _ _ _ _ _ _ _ _ _ _ warm_start) L) as R.
  pose proof (eps_loop_exit _ _ _ _ _ _ _ _ _ _ _ _ _ _ _ _ _ _ st L) as X.
  pose proof (eps_reach_gap _ _ _ _ _ _ _ _ _ _ _ _ _ _ _ _ st R)
    as (Hit & Hlast & Hall & Hg).
  destruct (es_last st) as [[P0 ilog]|] eqn:El; [|discriminate].
  destruct Hg as (Herr & Hlog & Hinner). subst log. inversion H; subst P0 olog.
  exists st, ilog.
  split; [exact R|]. split; [exact El|]. split; [exact Hinner|].
  split; [reflexivity|]. split; [exact Herr|]. split; [exact Hlast|].
  split; [exact Hall|]. split; [exact Hit|].
  unfold eps_guard in X. rewrite <- Z.leb_gt. apply andb_false_iff.
  apply X. unfold eps_init. cbn [es_it]. lia.
Qed.

(** On the scenario of section 8 the controller makes all five passes it is
    allowed: the gap is still above the threshold. *)
Lemma epsilon_scaling_stops_on_gap_witness :
  exists P lg,
    sinkhorn_epsilon_scaling Reference.exp_ref Reference.log_ref
      Scenario.a Scenario.b Scenario.C Scenario.reg 5 100 1e3%float 0.75%float None
      1e-9%float false true None 10 200 = Ok (P, Some lg) /\
    (fgt (last (elog_err lg) 1%float) 1e-9%float = false \/
     5 < 1 + Z.of_nat (length (elog_err lg))).
Proof.
  destruct (sinkhorn_epsilon_scaling Reference.exp_ref Reference.log_ref
      Scenario.a Scenario.b Scenario.C Scenario.reg 5 100 1e3%float 0.75%float None
      1e-9%float false true None 10 200) as [[P olog]|e] eqn:E;
    [|vm_compute in E; discriminate].
  destruct (epsilon_scaling_stops_on_gap _ _ _ _ _ _ _ _ _ _ _ _ _ _ _ _ _ _ _ E)
    as (st & ilog & _ & _ & _ & Ho & _ & Hlast & _ & Hit & Hx).
  subst olog. exists P. eexists. split; [reflexivity|].
  cbn [elog_err]. rewrite Hlast, <- Hit. exact Hx.
Defined.

(** C3 fails on the scenario of section 8 with [reg = 0.001] and every
    other argument at its default ([maxIter = 100], [stopThr = 1e-9]).  In
    the 29th pass the off-diagonal entries of the plan underflow to 0; the
    gap takes [log(P)] as it is (line 243), [0 * log 0] is NaN, and so is
    [err].  The test [err > stopThr] then fails and the loop is left, though
    the gap is not at most [stopThr] (the last gap that is a number, the
    28th, is above it) and 71 passes remain. *)
Lemma epsilon_scaling_nan_gap_stops :
  exists P lg,
    sinkhorn_epsilon_scaling Reference.exp_ref Reference.log_ref
      Scenario.a Scenario.b Scenario.C 0.001%float 100 100 1e3%float 0.75%float None
      1e-9%float false true None 10 200 = Ok (P, Some lg) /\
    length (elog_err lg) = 29%nat /\
    existsb (fun p => (p =? 0)%float) (entries P) = true /\
    is_nan (duality_gap Reference.log_ref Scenario.a Scenario.b Scenario.C 0.001%float P
              (elog_alpha lg) (elog_beta lg)) = true /\
    is_nan (last (elog_err lg) 1%float) = true /\
    (last (elog_err lg) 1%float <=? 1e-9)%float = false /\
    fgt (nth 27 (elog_err lg) 0%float) 1e-9%float = true.
Proof.
  destruct (sinkhorn_epsilon_scaling Reference.exp_ref Reference.log_ref
      Scenario.a Scenario.b Scenario.C 0.001%float 100 100 1e3%float 0.75%float None
      1e-9%float false true None 10 200) as [[P [lg|]]|e] eqn:E;
    vm_compute in E; try discriminate.
  injection E as EP Elg. subst P lg. do 2 eexists. split; [reflexivity|].
  vm_compute. repeat split; reflexivity.
Qed.

(** * The numerical-fault policy *)

(** The plain solver: when the update produces a NaN or an infinity, the loop
    is left at once with the state it had before the update. *)
Lemma knopp_loop_rolls_back a b K maxIter stopThr verbose log eval_freq print_freq fuel st :
  fgt (ks_err st) stopThr && (ks_it st <=? maxIter) = true ->
  (let '(u, v) := knopp_update a b K (ks_u st) in
   any_isnan u || any_isnan v || any_isinf u || any_isinf v) = true ->
  knopp_loop a b K maxIter stopThr verbose log eval_freq print_freq (S fuel) st = Ok st.
Proof.
  intros G F. cbn [knopp_loop]. rewrite G.
  destruct (knopp_update a b K (ks_u st)) as [u v]. rewrite F.
  destruct st; reflexivity.
Qed.

(** The stabilized loop has no such exit: every pass that does not raise
    advances [it] and commits the update. *)
Lemma stab_body_advances fexp flog a b C reg tau verbose log eval_freq print_freq st st' :
  stab_body fexp flog a b C reg tau verbose log eval_freq print_freq st = Ok st' ->
  ss_it st' = ss_it st + 1.
Proof.
  unfold stab_body, bind.
  destruct (knopp_update a b (ss_K st) (ss_u st)) as [u v].
  destruct (absorb _ _ _ _ _ _ _ _ _) as [[[[[al be] u'] v'] K'] ab].
  destruct (flag_and_multiple log (ss_it st) eval_freq); [|discriminate].
  destruct (flag_and_multiple verbose (ss_it st) print_freq); [|discriminate].
  intros H. inversion H. reflexivity.
Qed.

Lemma stab_loop_exit fexp flog a b C reg maxIter tau stopThr verbose log eval_freq
    print_freq fuel :
  forall st st',
    stab_loop fexp flog a b C reg maxIter tau stopThr verbose log eval_freq print_freq
      fuel st = Ok st' ->
    maxIter < ss_it st + Z.of_nat fuel ->
    fgt (ss_err st') stopThr && (ss_it st' <=? maxIter) = false.
Proof.
  induction fuel as [|fuel IH]; cbn [stab_loop]; intros st st' H Hf.
  - inversion H; subst. apply andb_false_iff. right. apply Z.leb_gt. lia.
  - destruct (fgt (ss_err st) stopThr && (ss_it st <=? maxIter)) eqn:G.
    + unfold bind in H.
      destruct (stab_body _ _ _ _ _ _ _ _ _ _ _ st) as [st1|e] eqn:B; [|discriminate].
      apply (IH st1 st' H). rewrite (stab_body_advances _ _ _ _ _ _ _ _ _ _ _ _ _ B). lia.
    + inversion H; subst. exact G.
Qed.

(** C4 fails for the stabilized solver.  With [a = [1e300]], [b = [1e-10]],
    [C = [[0]]], [reg = 1] and one iteration, the update makes [u] infinite.
    The plain solver rolls back to [u = v = [1]] and returns the plan
    [[[1]]]; the stabilized solver absorbs the infinite [u] into [alpha] and
    returns an infinite plan. *)
Theorem stabilized_commits_nonfinite_update :
  let a := [1e300%float] in
  let b := [1e-10%float] in
  let C := mkT2 1 1 [[0%float]] in
  let K := knopp_kernel Reference.exp_ref C 1%float in
  any_isinf (fst (knopp_update a b K (uniform 1))) = true /\
  (exists lg,
      sinkhorn_knopp Reference.exp_ref Reference.log_ref a b C 1%float 1 1e-9%float
        false true None 10 200 = Ok (mkT2 1 1 [[1%float]], Some lg) /\
      log_u lg = [1%float] /\ log_v lg = [1%float]) /\
  (exists P lg,
      sinkhorn_stabilized Reference.exp_ref Reference.log_ref a b C 1%float 1 1e3%float
        1e-9%float false true None 10 200 = Ok (P, Some lg) /\
      entries P = [infinity] /\ log_alpha lg = [infinity]).
Proof.
  cbv zeta. split; [vm_compute; reflexivity|]. split.
  - eexists. split; [vm_compute; reflexivity|]. split; reflexivity.
  - do 2 eexists. split; [vm_compute; reflexivity|]. split; reflexivity.
Qed.

(** * Signs of the plan's entries *)

Lemma sclear_not_sneg X : sclear X = true -> sneg X = false.
Proof. destruct X as [[]|[]| |[] ? ?]; simpl; congruence. Qed.

Lemma round_aux_sclear m e l : sclear (binary_round_aux prec emax false m e l) = true.
Proof.
  unfold binary_round_aux.
  destruct (shr_fexp prec emax m e l) as [mrs e'].
  destruct (shr_fexp prec emax _ e' loc_Exact) as [mrs' e''].
  destruct (shr_m mrs'); try reflexivity.
  destruct (Z.leb e'' (emax - prec)); reflexivity.
Qed.

Lemma round_sclear m e : sclear (binary_round prec emax false m e) = true.
Proof.
  unfold binary_round. destruct (shl_align _ _ _) as [mz ez]. apply round_aux_sclear.
Qed.

Lemma SFmul_nonneg X Y : sneg X = false -> sneg Y = false -> sneg (SF64mul X Y) = false.
Proof.
  unfold SF64mul.
  destruct X as [[]|[]| |[] mx ex], Y as [[]|[]| |[] my ey]; simpl; try congruence.
  intros _ _. apply sclear_not_sneg, round_aux_sclear.
Qed.

Lemma SFadd_nonneg X Y : sneg X = false -> sneg Y = false -> sneg (SF64add X Y) = false.
Proof.
  unfold SF64add.
  destruct X as [[]|[]| |[] mx ex], Y as [[]|[]| |[] my ey]; simpl; try congruence.
  intros _ _. apply sclear_not_sneg, round_sclear.
Qed.

Lemma SFdiv_nonneg X Y : sneg X = false -> sclear Y = true -> sneg (SF64div X Y) = false.
Proof.
  unfold SF64div.
  destruct X as [[]|[]| |[] mx ex], Y as [[]|[]| |[] my ey]; simpl; try congruence.
  intros _ _. unfold SFdiv.
  destruct (SFdiv_core_binary prec emax (Z.pos mx) ex (Z.pos my) ey) as [[mz ez] lz].
  apply sclear_not_sneg, round_aux_sclear.
Qed.

Lemma Prim2SF_M_EPS : Prim2SF M_EPS = S754_finite false 8112963841460668 (-106).
Proof. reflexivity. Qed.

Lemma SFadd_eps_sclear X :
  sneg X = false -> sclear (SF64add X (Prim2SF M_EPS)) = true.
Proof.
  rewrite Prim2SF_M_EPS. unfold SF64add.
  destruct X as [[]|[]| |[] mx ex]; simpl; try congruence.
  intros _. apply round_sclear.
Qed.

Lemma nonneg_spec x : nonneg x <-> sneg (Prim2SF x) = false.
Proof. unfold nonneg. rewrite is_neg_spec. tauto. Qed.

Lemma nonneg_mul x y : nonneg x -> nonneg y -> nonneg (x * y)%float.
Proof. rewrite !nonneg_spec, mul_spec. apply SFmul_nonneg. Qed.

Lemma nonneg_add x y : nonneg x -> nonneg y -> nonneg (x + y)%float.
Proof. rewrite !nonneg_spec, add_spec. apply SFadd_nonneg. Qed.

Lemma nonneg_div x y : nonneg x -> sign_clear y -> nonneg (x / y)%float.
Proof. unfold sign_clear. rewrite !nonneg_spec, div_spec. apply SFdiv_nonneg. Qed.

Lemma sign_clear_add_eps x : nonneg x -> sign_clear (x + M_EPS)%float.
Proof. unfold sign_clear. rewrite nonneg_spec, add_spec. apply SFadd_eps_sclear. Qed.

Lemma nonneg_zero : nonneg 0%float.
Proof. reflexivity. Qed.

Lemma sign_clear_of_nat n : sign_clear (of_nat n).
Proof.
  unfold sign_clear, of_nat. rewrite of_uint63_spec.
  destruct (Uint63Axioms.to_Z _) as [|p|p] eqn:E; simpl.
  - reflexivity.
  - apply round_sclear.
  - pose proof (Uint63.to_Z_bounded (Uint63Axioms.of_Z (Z.of_nat n))) as B.
    change Uint63.to_Z with Uint63Axioms.to_Z in B. rewrite E in B. lia.
Qed.

Lemma nonneg_uniform n : Forall nonneg (uniform n).
Proof.
  unfold uniform. apply Forall_forall. intros x Hx. apply repeat_spec in Hx. subst x.
  apply nonneg_div; [reflexivity|apply sign_clear_of_nat].
Qed.

(** ** Vectors and matrices without negative entries *)

Lemma Forall_zipWith {A B C : Type} (P : A -> Prop) (Q : B -> Prop) (R : C -> Prop)
    (f : A -> B -> C) :
  (forall a b, P a -> Q b -> R (f a b)) ->
  forall x y, Forall P x -> Forall Q y -> Forall R (zipWith f x y).
Proof.
  intros Hf x. induction x as [|a x IH]; intros [|b y] Hx Hy; simpl; try constructor.
  - inversion Hx; inversion Hy; subst. auto.
  - inversion Hx; inversion Hy; subst. auto.
Qed.

Lemma nonneg_vadd x y : nonneg_vec x -> nonneg_vec y -> nonneg_vec (vadd x y).
Proof. apply Forall_zipWith. apply nonneg_add. Qed.

Lemma nonneg_vscale s x : nonneg s -> nonneg_vec x -> nonneg_vec (vscale s x).
Proof.
  intros Hs Hx. unfold vscale. apply Forall_map.
  eapply Forall_impl; [|exact Hx]. intros. now apply nonneg_mul.
Qed.

Lemma nonneg_tsum x : nonneg_vec x -> nonneg (tsum x).
Proof.
  unfold tsum. generalize nonneg_zero. generalize 0%float.
  induction x as [|y x IH]; simpl; intros acc Ha Hx; [assumption|].
  inversion Hx; subst. apply IH; [apply nonneg_add|]; assumption.
Qed.

Lemma nonneg_zeros n : nonneg_vec (zeros n).
Proof.
  apply Forall_forall. intros x Hx. apply repeat_spec in Hx. subst. reflexivity.
Qed.

Lemma nonneg_matmul_vM u K : nonneg_vec u -> nonneg_mat K -> nonneg_vec (matmul_vM u K).
Proof.
  unfold matmul_vM, nonneg_mat. generalize (nonneg_zeros (shape1 K)).
  generalize (zeros (shape1 K)). generalize (rows K) as rs. revert u.
  induction u as [|ui u IH]; intros [|r rs] acc Hacc Hu Hrs; simpl; try assumption.
  inversion Hu; inversion Hrs; subst.
  apply IH; try assumption. apply nonneg_vadd; [assumption|].
  apply nonneg_vscale; assumption.
Qed.

Lemma nonneg_matmul_Mv K v : nonneg_mat K -> nonneg_vec v -> nonneg_vec (matmul_Mv K v).
Proof.
  intros HK Hv. unfold matmul_Mv. apply Forall_map.
  eapply Forall_impl; [|exact HK]. intros row Hrow. apply nonneg_tsum.
  unfold vmul. eapply Forall_zipWith; eauto using nonneg_mul.
Qed.

Lemma nonneg_div_eps x y : nonneg_vec x -> nonneg_vec y -> nonneg_vec (vdiv x (vadds y M_EPS)).
Proof.
  intros Hx Hy. unfold vdiv, vadds.
  apply (Forall_zipWith nonneg sign_clear nonneg); [apply nonneg_div|assumption|].
  apply Forall_map. eapply Forall_impl; [|exact Hy]. apply sign_clear_add_eps.
Qed.

Lemma nonneg_knopp_update a b K u :
  nonneg_vec a -> nonneg_vec b -> nonneg_mat K -> nonneg_vec u ->
  nonneg_vec (fst (knopp_update a b K u)) /\ nonneg_vec (snd (knopp_update a b K u)).
Proof.
  intros Ha Hb HK Hu. unfold knopp_update. cbn [fst snd].
  assert (nonneg_vec (vdiv b (vadds (matmul_vM u K) M_EPS))) as Hv
    by auto using nonneg_div_eps, nonneg_matmul_vM.
  split; [|exact Hv]. auto using nonneg_div_eps, nonneg_matmul_Mv.
Qed.

Lemma nonneg_knopp_loop a b K maxIter stopThr verbose log eval_freq print_freq fuel :
  nonneg_vec a -> nonneg_vec b -> nonneg_mat K ->
  forall st st',
    knopp_loop a b K maxIter stopThr verbose log eval_freq print_freq fuel st = Ok st' ->
    nonneg_vec (ks_u st) -> nonneg_vec (ks_v st) ->
    nonneg_vec (ks_u st') /\ nonneg_vec (ks_v st').
Proof.
  intros Ha Hb HK. induction fuel as [|fuel IH]; cbn [knopp_loop]; intros st st' H Hu Hv.
  - inversion H; subst. auto.
  - destruct (fgt (ks_err st) stopThr && (ks_it st <=? maxIter)).
    2:{ inversion H; subst. auto. }
    pose proof (nonneg_knopp_update a b K (ks_u st) Ha Hb HK Hu) as [Hu' Hv'].
    destruct (knopp_update a b K (ks_u st)) as [u v]. cbn [fst snd] in Hu', Hv'.
    destruct (any_isnan u || any_isnan v || any_isinf u || any_isinf v).
    { inversion H; subst. auto. }
    unfold bind in H.
    destruct (flag_and_multiple log (ks_it st) eval_freq) as [do_eval|]; [|discriminate].
    destruct (flag_and_multiple verbose (ks_it st) print_freq); [|discriminate].
    apply IH in H; assumption.
Qed.

Lemma nonneg_knopp_plan K u v :
  nonneg_mat K -> nonneg_vec u -> nonneg_vec v -> Forall nonneg (entries (knopp_plan K u v)).
Proof.
  intros HK Hu Hv. unfold entries, knopp_plan. cbn [rows].
  apply Forall_concat.
  apply (Forall_zipWith nonneg nonneg_vec nonneg_vec); try assumption.
  intros ui row Hui Hrow.
  apply (Forall_zipWith nonneg nonneg nonneg); try assumption.
  intros kij vj Hk Hvj. auto using nonneg_mul.
Qed.

Lemma check_inputs_nonneg a b C reg :
  check_inputs a b C reg = Ok tt -> nonneg_vec a /\ nonneg_vec b.
Proof.
  unfold check_inputs, assert, bind. intros H.
  destruct ((1 <=? shape0 C)%nat && (1 <=? shape1 C)%nat); [|discriminate].
  destruct ((shape0 C =? length a)%nat && (shape1 C =? length b)%nat); [|discriminate].
  destruct (fgt reg 0); [|discriminate].
  destruct (fge (tmin a) 0 && fge (tmin b) 0) eqn:E; [|discriminate].
  apply andb_prop in E. destruct E as [Ea Eb].
  assert (forall l, fge (tmin l) 0 = true -> nonneg_vec l) as K.
  { intros l Hl. apply Forall_forall. intros x Hx. unfold nonneg.
    destruct (is_neg x) eqn:N; [|reflexivity].
    rewrite tmin_negative in Hl; [discriminate|].
    apply Exists_exists. eauto. }
  split; apply K; assumption.
Qed.

Section ExpNotNegative.

Variables (fexp flog : float -> float).
Hypothesis fexp_nonneg : forall x, nonneg (fexp x).

Lemma nonneg_knopp_kernel C reg : nonneg_mat (knopp_kernel fexp C reg).
Proof.
  unfold nonneg_mat, knopp_kernel, tmap. cbn [rows].
  rewrite map_map. apply Forall_map, Forall_forall. intros row _.
  apply Forall_map, Forall_forall. intros x _. apply fexp_nonneg.
Qed.

Lemma nonneg_update_P C reg alpha beta u v ab :
  Forall nonneg (entries (update_P fexp flog C reg alpha beta u v ab)).
Proof.
  unfold entries, update_P. cbn [rows]. apply Forall_concat.
  apply (Forall_zipWith (fun _ => True) (fun _ => True) nonneg_vec);
    try (apply Forall_forall; intros; exact I).
  intros ail crow _ _.
  apply (Forall_zipWith (fun _ => True) (fun _ => True) nonneg);
    try (apply Forall_forall; intros; exact I).
  intros bjl c _ _. apply fexp_nonneg.
Qed.

End ExpNotNegative.

(** C7, as the code has it: provided [exp] never returns a negative number
    and the warm start, if any, has no negative entry, no entry of a plan
    returned by [sinkhorn_knopp], [sinkhorn_stabilized] or
    [sinkhorn_epsilon_scaling] is negative. *)
Theorem plan_entries_not_negative :
  forall fexp flog,
    (forall x, nonneg (fexp x)) ->
    (forall a b C reg maxIter stopThr verbose log warm_start eval_freq print_freq P lg,
        match warm_start with
        | Some (u0, v0) => nonneg_vec u0 /\ nonneg_vec v0
        | None => True
        end ->
        sinkhorn_knopp fexp flog a b C reg maxIter stopThr verbose log warm_start
          eval_freq print_freq = Ok (P, lg) ->
        Forall nonneg (entries P)) /\
    (forall a b C reg maxIter tau stopThr verbose log warm_start eval_freq print_freq P lg,
        sinkhorn_stabilized fexp flog a b C reg maxIter tau stopThr verbose log warm_start
          eval_freq print_freq = Ok (P, lg) ->
        Forall nonneg (entries P)) /\
    (forall a b C reg maxIter maxInnerIter tau scaling_base scaling_coef stopThr verbose
            log warm_start eval_freq print_freq P lg,
        sinkhorn_epsilon_scaling fexp flog a b C reg maxIter maxInnerIter tau scaling_base
          scaling_coef stopThr verbose log warm_start eval_freq print_freq = Ok (P, lg) ->
        Forall nonneg (entries P)).
Proof.
  intros fexp flog Hexp.
  assert (forall a b C reg maxIter tau stopThr verbose log warm_start eval_freq print_freq
                 P lg,
             sinkhorn_stabilized fexp flog a b C reg maxIter tau stopThr verbose log
               warm_start eval_freq print_freq = Ok (P, lg) ->
             Forall nonneg (entries P)) as Hstab.
  { intros a b C reg maxIter tau stopThr verbose log ws ef pf P lg H.
    unfold sinkhorn_stabilized, bind in H.
    destruct (check_inputs a b C reg); [|discriminate].
    destruct (stab_loop _ _ _ _ _ _ _ _ _ _ _ _ _ _ _) as [st|]; [|discriminate].
    destruct log; inversion H; subst; apply nonneg_update_P; assumption. }
  split; [|split; [exact Hstab|]].
  - intros a b C reg maxIter stopThr verbose log ws ef pf P lg Hws H.
    unfold sinkhorn_knopp, bind in H.
    destruct (check_inputs a b C reg) as [[]|] eqn:Ec; [|discriminate].
    apply check_inputs_nonneg in Ec. destruct Ec as [Ha Hb].
    destruct (knopp_loop _ _ _ _ _ _ _ _ _ _ _) as [st|] eqn:L; [|discriminate].
    pose proof (nonneg_knopp_kernel fexp Hexp C reg) as HK.
    apply (nonneg_knopp_loop _ _ _ _ _ _ _ _ _ _ Ha Hb HK) in L.
    + destruct L as [Hu Hv].
      destruct log; inversion H; subst; apply nonneg_knopp_plan; assumption.
    + unfold knopp_init. destruct ws as [[u0 v0]|]; cbn [ks_u]; [tauto|].
      apply nonneg_uniform.
    + unfold knopp_init. destruct ws as [[u0 v0]|]; cbn [ks_v]; [tauto|].
      apply nonneg_uniform.
  - intros a b C reg maxIter maxInnerIter tau scaling_base scaling_coef stopThr verbose
           log ws ef pf P lg H.
    apply eps_scaling_plan_of_inner_solve in H.
    destruct H as (r & ws' & ilog & Hin).
    exact (Hstab _ _ _ _ _ _ _ _ _ _ _ _ _ _ Hin).
Qed.

Lemma exp_ref_nonneg x : nonneg (Reference.exp_ref x).
Proof.
  unfold Reference.exp_ref.
  destruct (is_nan x); [reflexivity|].
  destruct (710 <? x)%float; [reflexivity|].
  destruct (x <? -746)%float; [reflexivity|].
  cbv zeta.
  match goal with |- nonneg (if (?y <? 0)%float then _ else _) =>
    destruct (y <? 0)%float eqn:E end; [reflexivity|exact E].
Qed.

(** The scenario of section 8, solved by the plain solver. *)
Lemma plan_entries_not_negative_witness :
  exists P lg,
    sinkhorn_knopp Reference.exp_ref Reference.log_ref Scenario.a Scenario.b Scenario.C
      Scenario.reg 1000 1e-9%float false true None 10 200 = Ok (P, lg) /\
    Forall nonneg (entries P).
Proof.
  destruct (sinkhorn_knopp Reference.exp_ref Reference.log_ref Scenario.a Scenario.b
              Scenario.C Scenario.reg 1000 1e-9%float false true None 10 200)
    as [[P lg]|e] eqn:E; [|vm_compute in E; discriminate].
  exists P, lg. split; [reflexivity|].
  exact (proj1 (plan_entries_not_negative Reference.exp_ref Reference.log_ref
                  exp_ref_nonneg)
           Scenario.a Scenario.b Scenario.C Scenario.reg 1000 1e-9%float false true None
           10 200 P lg I E).
Defined.

(** C7 as stated fails: with [a = [max float]], [b = [3]], [C = [[0]]] and
    [reg = 1], one iteration leaves finite scaling vectors
    ([u = [max/3]], [v = [3]]: no numerical fault is detected), and the entry
    [u * K * v] of the returned plan overflows to +infinity. *)
Lemma plan_entry_overflows :
  exists P lg,
    sinkhorn_knopp Reference.exp_ref Reference.log_ref
      [0x1.fffffffffffffp+1023%float] [3%float] (mkT2 1 1 [[0%float]]) 1%float
      1 1e-9%float false true None 10 200 = Ok (P, Some lg) /\
    any_isnan (log_u lg) || any_isnan (log_v lg)
      || any_isinf (log_u lg) || any_isinf (log_v lg) = false /\
    entries P = [infinity] /\
    ~ Forall (fun x => is_finite x = true) (entries P).
Proof.
  do 2 eexists. split; [vm_compute; reflexivity|].
  split; [vm_compute; reflexivity|]. split; [reflexivity|].
  intros H. inversion H as [|x l Hx _]. vm_compute in Hx. discriminate.
Qed.

(** * The plain solver *)

Lemma knopp_kernel_spec fexp C reg : knopp_kernel fexp C reg = spec_gibbs fexp C reg.
Proof.
  unfold knopp_kernel, spec_gibbs, tmap. cbn [shape0 shape1 rows]. f_equal.
  rewrite map_map. apply map_ext. intros row. rewrite map_map. apply map_ext.
  intros c. now rewrite fdiv_opp_r.
Qed.

Section KnoppFacts.

Variables (a b : vec) (K : tensor2) (uv0 : vec * vec).
Variables (maxIter : Z) (stopThr : float) (verbose log : bool)
          (eval_freq print_freq : Z).

Let loop := knopp_loop a b K maxIter stopThr verbose log eval_freq print_freq.
Let iterate := spec_iterate a b K uv0.
Let err := spec_err a b K uv0 log eval_freq.
Let trace := spec_trace a b K uv0 log eval_freq.

Lemma flag_and_multiple_sampled n do_eval :
  flag_and_multiple log (Z.of_nat n) eval_freq = Ok do_eval ->
  do_eval = sampled log eval_freq n.
Proof.
  unfold flag_and_multiple, sampled. destruct log; cbn [andb].
  - destruct (eval_freq =? 0); [discriminate|]. congruence.
  - congruence.
Qed.

Lemma knopp_loop_run fuel : forall n st st',
  loop fuel st = Ok st' ->
  knopp_inv a b K uv0 log eval_freq n st ->
  maxIter < Z.of_nat n + 1 + Z.of_nat fuel ->
  exists m,
    (n <= m)%nat /\
    knopp_inv a b K uv0 log eval_freq m st' /\
    (forall j, (n <= j < m)%nat ->
               fgt (err j) stopThr = true /\ Z.of_nat j < maxIter /\
               finite_pair (iterate (S j)) = true) /\
    (fgt (err m) stopThr = false \/ maxIter <= Z.of_nat m \/
     finite_pair (iterate (S m)) = false).
Proof.
  subst loop iterate err trace.
  induction fuel as [|fuel IH]; cbn [knopp_loop]; intros n st st' H I Hf.
  - inversion H; subst st'. exists n.
    split; [lia|]. split; [exact I|]. split; [intros; lia|]. right; left; lia.
  - destruct I as (Iuv & Iit & Ierr & Ierrs).
    destruct (fgt (ks_err st) stopThr && (ks_it st <=? maxIter)) eqn:G.
    2:{ inversion H; subst st'. exists n.
        split; [lia|]. split; [repeat split; assumption|]. split; [intros; lia|].
        apply andb_false_iff in G. destruct G as [G|G].
        - left. now rewrite <- Ierr.
        - right; left. apply Z.leb_gt in G. lia. }
    apply andb_prop in G. destruct G as [G1 G2]. apply Z.leb_le in G2.
    assert (knopp_update a b K (ks_u st) = spec_iterate a b K uv0 (S n)) as Eu.
    { change (spec_iterate a b K uv0 (S n))
        with (spec_step a b K (spec_iterate a b K uv0 n)).
      rewrite <- Iuv. reflexivity. }
    destruct (knopp_update a b K (ks_u st)) as [u v].
    destruct (any_isnan u || any_isnan v || any_isinf u || any_isinf v) eqn:F.
    { inversion H; subst st'. exists n.
      split; [lia|]. split; [repeat split; assumption|]. split; [intros; lia|].
      right; right. rewrite <- Eu. unfold finite_pair. cbn [fst snd]. now rewrite F. }
    unfold bind in H.
    destruct (flag_and_multiple log (ks_it st) eval_freq) as [do_eval|] eqn:Ef;
      [|discriminate].
    destruct (flag_and_multiple verbose (ks_it st) print_freq); [|discriminate].
    replace (ks_it st) with (Z.of_nat (S n)) in Ef by lia.
    apply flag_and_multiple_sampled in Ef.
    apply IH with (n := S n) in H.
    + destruct H as (m & Hm & Im & Hj & Hstop).
      exists m. split; [lia|]. split; [exact Im|]. split; [|exact Hstop].
      intros j Hjr. destruct (Nat.eq_dec j n) as [->|Hne].
      * split; [now rewrite <- Ierr|]. split; [lia|].
        rewrite <- Eu. unfold finite_pair. cbn [fst snd]. now rewrite F.
      * apply Hj. lia.
    + unfold knopp_inv. cbn [ks_u ks_v ks_it ks_err ks_errs].
      split; [exact Eu|]. split; [lia|].
      cbn [spec_err spec_trace].
      fold (spec_iterate a b K uv0 (S n)). rewrite <- Ef, <- Eu.
      unfold spec_residual, knopp_residual. cbn [fst snd].
      destruct do_eval; split; congruence.
    + lia.
Qed.

End KnoppFacts.

(** The loop returns unless a modulus by zero is evaluated. *)
Lemma knopp_loop_returns a b K maxIter stopThr verbose log eval_freq print_freq fuel :
  (log = true -> eval_freq <> 0) ->
  (verbose = true -> print_freq <> 0) ->
  forall st, exists st',
    knopp_loop a b K maxIter stopThr verbose log eval_freq print_freq fuel st = Ok st'.
Proof.
  intros Hl Hv. induction fuel as [|fuel IH]; intros st; cbn [knopp_loop]; [eauto|].
  destruct (fgt (ks_err st) stopThr && (ks_it st <=? maxIter)); [|eauto].
  destruct (knopp_update a b K (ks_u st)) as [u v].
  destruct (any_isnan u || any_isnan v || any_isinf u || any_isinf v); [eauto|].
  unfold flag_and_multiple, bind.
  destruct log.
  - destruct (eval_freq =? 0) eqn:E; [apply Z.eqb_eq in E; tauto|].
    destruct verbose; [|apply IH].
    destruct (print_freq =? 0) eqn:E'; [apply Z.eqb_eq in E'; tauto|apply IH].
  - destruct verbose; [|apply IH].
    destruct (print_freq =? 0) eqn:E'; [apply Z.eqb_eq in E'; tauto|apply IH].
Qed.

Lemma sinkhorn_knopp_returns fexp flog a b C reg maxIter stopThr verbose log warm_start
    eval_freq print_freq :
  check_inputs a b C reg = Ok tt ->
  (log = true -> eval_freq <> 0) ->
  (verbose = true -> print_freq <> 0) ->
  exists P lg,
    sinkhorn_knopp fexp flog a b C reg maxIter stopThr verbose log warm_start eval_freq
      print_freq = Ok (P, lg).
Proof.
  intros Hc Hl Hv. unfold sinkhorn_knopp, bind. rewrite Hc.
  destruct (knopp_loop_returns a b (knopp_kernel fexp C reg) maxIter stopThr verbose log
              eval_freq print_freq (Z.to_nat maxIter) Hl Hv (knopp_init C warm_start))
    as [st ->].
  destruct log; eauto.
Qed.

(** C1, as the code has it.  Whenever [sinkhorn_knopp] returns, there is a
    number [n] of completed iterations such that: the scaling vectors are the
    [n]-th iterate of [v <- b / (K^T u + eps); u <- a / (K v + eps)] for the
    kernel [K = exp(-C / reg)], built once; the plan is [u_i * K_ij * v_j];
    [err], 1 at entry, is recomputed as [sum((b - (u^T K) * v)^2)] at the
    iterations that are multiples of [eval_freq] when the log is enabled, and
    never otherwise; every iteration was entered with [err > stopThr] and
    within the budget and produced finite vectors; and the loop was left
    because [err > stopThr] failed, or [maxIter] iterations were made, or the
    next update was not finite (it is then discarded). *)
Theorem sinkhorn_knopp_algorithm :
  forall fexp flog a b C reg maxIter stopThr verbose log warm_start eval_freq print_freq
         P lg,
    sinkhorn_knopp fexp flog a b C reg maxIter stopThr verbose log warm_start eval_freq
      print_freq = Ok (P, lg) ->
    let K := spec_gibbs fexp C reg in
    let uv0 :=
      match warm_start with
      | Some uv => uv
      | None => (uniform (shape0 C), uniform (shape1 C))
      end in
    let iterate := spec_iterate a b K uv0 in
    let err := spec_err a b K uv0 log eval_freq in
    exists n : nat,
      let u := fst (iterate n) in
      let v := snd (iterate n) in
      P = mkT2 (shape0 C) (shape1 C)
            (zipWith (fun ui krow => zipWith (fun kij vj => (ui * kij * vj)%float) krow v)
                     u (rows K)) /\
      lg = (if log
            then Some (mkLog (spec_trace a b K uv0 log eval_freq n) u v
                         (map (fun ui => (reg * flog (ui + M_EPS))%float) u)
                         (map (fun vj => (reg * flog (vj + M_EPS))%float) v))
            else None) /\
      (forall j, (j < n)%nat ->
                 fgt (err j) stopThr = true /\ Z.of_nat j < maxIter /\
                 finite_pair (iterate (S j)) = true) /\
      (fgt (err n) stopThr = false \/ maxIter <= Z.of_nat n \/
       finite_pair (iterate (S n)) = false).
Proof.
  intros fexp flog a b C reg maxIter stopThr verbose log ws ef pf P lg H K uv0 iterate err.
  unfold sinkhorn_knopp, bind in H.
  destruct (check_inputs a b C reg); [|discriminate].
  rewrite knopp_kernel_spec in H. fold K in H.
  destruct (knopp_loop _ _ _ _ _ _ _ _ _ _ _) as [st|] eqn:L; [|discriminate].
  apply (knopp_loop_run a b K uv0 maxIter stopThr verbose log ef pf _ 0%nat) in L.
  - destruct L as (n & _ & (Iuv & _ & _ & Ierrs) & Hj & Hstop).
    exists n. cbv zeta. subst iterate err. rewrite <- Iuv. cbn [fst snd].
    split; [|split; [|split; [intros j Hjn; apply Hj; lia|exact Hstop]]].
    + destruct log; inversion H; reflexivity.
    + destruct log; inversion H; [|reflexivity].
      unfold vscale, vlog_eps. rewrite !map_map, Ierrs. reflexivity.
  - unfold knopp_inv, knopp_init. subst uv0.
    destruct ws as [[u0 v0]|]; repeat split; reflexivity.
  - lia.
Qed.

(** The scenario of section 8 with the solver's default arguments and the
    log enabled. *)
Lemma sinkhorn_knopp_algorithm_witness :
  exists P lg,
    sinkhorn_knopp Reference.exp_ref Reference.log_ref Scenario.a Scenario.b Scenario.C
      Scenario.reg 1000 1e-9%float false true None 10 200 = Ok (P, lg) /\
    exists n, (Z.of_nat n <= 1000)%Z /\
      P = knopp_plan (spec_gibbs Reference.exp_ref Scenario.C Scenario.reg)
            (fst (spec_iterate Scenario.a Scenario.b
                    (spec_gibbs Reference.exp_ref Scenario.C Scenario.reg)
                    (uniform 2, uniform 2) n))
            (snd (spec_iterate Scenario.a Scenario.b
                    (spec_gibbs Reference.exp_ref Scenario.C Scenario.reg)
                    (uniform 2, uniform 2) n)).
Proof.
  destruct (sinkhorn_knopp Reference.exp_ref Reference.log_ref Scenario.a Scenario.b
              Scenario.C Scenario.reg 1000 1e-9%float false true None 10 200)
    as [[P lg]|e] eqn:E; [|vm_compute in E; discriminate].
  exists P, lg. split; [reflexivity|].
  destruct (sinkhorn_knopp_algorithm _ _ _ _ _ _ _ _ _ _ _ _ _ _ _ E)
    as (n & HP & _ & Hj & _).
  exists n. split; [|exact HP].
  destruct n as [|k]; [lia|]. destruct (Hj k) as (_ & Hk & _); lia.
Defined.

(** C1 as stated fails with the log disabled, the default of
    [sinkhorn_knopp].  For [a = [0.3, 0.7]], [b = [0.6, 0.4]], the cost of
    section 8, [reg = 1] and the default [maxIter = 1000], [stopThr = 1e-9],
    [eval_freq = 10]: after the 10th iteration the residual is below
    [stopThr], yet no residual is computed, the loop runs all 1000 iterations
    and the plan returned is not the one of the 10th iterate. *)
Lemma sinkhorn_knopp_without_log_never_evaluates :
  let a := [0.3; 0.7]%float in
  let b := [0.6; 0.4]%float in
  let K := spec_gibbs Reference.exp_ref Scenario.C 1%float in
  let iterate := spec_iterate a b K (uniform 2, uniform 2) in
  (spec_residual b K (iterate 10%nat) <=? 1e-9)%float = true /\
  sinkhorn_knopp Reference.exp_ref Reference.log_ref a b Scenario.C 1%float
    1000 1e-9%float false false None 10 200
  = Ok (knopp_plan K (fst (iterate 1000%nat)) (snd (iterate 1000%nat)), None) /\
  (hd 0%float (entries (knopp_plan K (fst (iterate 1000%nat)) (snd (iterate 1000%nat))))
   =? hd 0%float (entries (knopp_plan K (fst (iterate 10%nat)) (snd (iterate 10%nat)))))%float
  = false.
Proof.
  cbv zeta. repeat split; vm_compute; reflexivity.
Qed.

(** * Further properties of the solvers *)

(** ** The assertions, exactly *)

Lemma fge0_not_nan x : fge x 0 = true -> is_nan x = false.
Proof.
  rewrite fge0_spec. intros H. destruct (is_nan x) eqn:E; [|reflexivity].
  apply is_nan_spec in E. rewrite E in H. discriminate.
Qed.

Lemma fmin_ge0 acc x :
  fge (fmin acc x) 0 = true <-> fge acc 0 = true /\ fge x 0 = true.
Proof.
  unfold fmin. split.
  - destruct (is_nan acc) eqn:Ea.
    { intros H. apply fge0_not_nan in H. congruence. }
    destruct (is_nan x) eqn:Ex.
    { intros H. apply fge0_not_nan in H. congruence. }
    assert (Prim2SF acc <> S754_nan) as Na
      by (intros E; apply is_nan_spec in E; congruence).
    assert (Prim2SF x <> S754_nan) as Nx
      by (intros E; apply is_nan_spec in E; congruence).
    destruct (x <? acc)%float eqn:El; rewrite ltb_spec in El; rewrite !fge0_spec;
      revert El Na Nx; unfold SFltb;
      destruct (Prim2SF x) as [[]|[]| |[] ? ?], (Prim2SF acc) as [[]|[]| |[] ? ?];
      simpl; intuition congruence.
  - intros [Ha Hx].
    rewrite (fge0_not_nan _ Ha), (fge0_not_nan _ Hx).
    destruct (x <? acc)%float; assumption.
Qed.

Lemma fold_fmin_ge0 l : forall acc,
  fge (fold_left fmin l acc) 0 = true <->
  fge acc 0 = true /\ Forall (fun x => fge x 0 = true) l.
Proof.
  induction l as [|x l IH]; intros acc; simpl.
  - split; [intros H; split; [assumption|constructor]|tauto].
  - rewrite IH, fmin_ge0. split.
    + intros [[Ha Hx] Hl]. split; [assumption|constructor; assumption].
    + intros [Ha Hl]. inversion Hl; subst. tauto.
Qed.

Lemma tmin_ge0 l :
  l <> [] -> (fge (tmin l) 0 = true <-> Forall (fun x => fge x 0 = true) l).
Proof.
  destruct l as [|x l]; [congruence|]. intros _. simpl. rewrite fold_fmin_ge0.
  split; [intros [H1 H2]; constructor; assumption|intros H; inversion H; tauto].
Qed.

(** X1: the four assertions pass exactly on the valid inputs: a cost matrix
    with at least one row and one column, [a] and [b] of matching lengths,
    [reg > 0], and every entry of [a] and [b] at least 0.  In particular a
    NaN [reg] or a NaN mass is rejected. *)
Theorem check_inputs_exact :
  forall a b C reg, check_inputs a b C reg = Ok tt <-> valid_inputs a b C reg.
Proof.
  intros a b C reg. unfold check_inputs, valid_inputs, assert, bind.
  destruct (1 <=? shape0 C)%nat eqn:E1; cbn [andb].
  2:{ apply Nat.leb_gt in E1. split; [discriminate|lia]. }
  destruct (1 <=? shape1 C)%nat eqn:E2.
  2:{ apply Nat.leb_gt in E2. split; [discriminate|lia]. }
  apply Nat.leb_le in E1, E2.
  destruct (shape0 C =? length a)%nat eqn:E3; cbn [andb].
  2:{ apply Nat.eqb_neq in E3. split; [discriminate|tauto]. }
  destruct (shape1 C =? length b)%nat eqn:E4.
  2:{ apply Nat.eqb_neq in E4. split; [discriminate|tauto]. }
  apply Nat.eqb_eq in E3, E4.
  destruct (fgt reg 0) eqn:E5.
  2:{ split; [discriminate|]. intros (_ & _ & _ & _ & H & _). discriminate. }
  assert (a <> []) as Na by (destruct a; simpl in *; [lia|discriminate]).
  assert (b <> []) as Nb by (destruct b; simpl in *; [lia|discriminate]).
  destruct (fge (tmin a) 0) eqn:Ea; cbn [andb].
  2:{ split; [discriminate|]. intros (_ & _ & _ & _ & _ & H & _).
      apply (tmin_ge0 a Na) in H. congruence. }
  destruct (fge (tmin b) 0) eqn:Eb.
  2:{ split; [discriminate|]. intros (_ & _ & _ & _ & _ & _ & H).
      apply (tmin_ge0 b Nb) in H. congruence. }
  apply (tmin_ge0 a Na) in Ea. apply (tmin_ge0 b Nb) in Eb.
  split; [intros _|reflexivity]. repeat split; assumption.
Qed.

(** ** Calls of the controller that cannot return *)

(** X2: with [log=False] no call of [sinkhorn_epsilon_scaling] returns:
    it fails an assertion, or ends in [UnboundLocalError] (no pass was
    made), or raises during its first pass. *)
Theorem epsilon_scaling_without_log_never_returns :
  forall fexp flog a b C reg maxIter maxInnerIter tau scaling_base scaling_coef stopThr
         verbose warm_start eval_freq print_freq r,
    sinkhorn_epsilon_scaling fexp flog a b C reg maxIter maxInnerIter tau scaling_base
      scaling_coef stopThr verbose false warm_start eval_freq print_freq <> Ok r.
Proof.
  intros fexp flog a b C reg maxIter maxInnerIter tau scaling_base scaling_coef stopThr
         verbose warm_start eval_freq print_freq r H.
  unfold sinkhorn_epsilon_scaling, bind in H.
  destruct (check_inputs a b C reg); [|discriminate].
  destruct (eps_loop _ _ _ _ _ _ _ _ _ _ _ _ _ _ _ _ _ _) as [st|e] eqn:L; [|discriminate].
  pose proof (eps_loop_reach _ _ _ _ _ _ _ _ _ _ _ _ _ _ _ _ _ _ st
                (eps_reach_init _ _ _ _ _ _ _ _ _ _ _ _ _ _ _ _ warm_start) L) as R.
  apply eps_reach_gap in R. destruct R as (_ & _ & _ & Hg).
  destruct (es_last st) as [[P0 ilog]|]; [|discriminate].
  destruct Hg as (_ & Hlog & _). discriminate.
Qed.

(** X3: when the outer loop makes no pass ([stopThr] is not below 1, or
    [maxIter] is below 1), a call whose assertions pass ends in
    [UnboundLocalError], whatever [log] is: neither [P] nor [_log] was ever
    assigned. *)
Theorem epsilon_scaling_without_pass_raises :
  forall fexp flog a b C reg maxIter maxInnerIter tau scaling_base scaling_coef stopThr
         verbose log warm_start eval_freq print_freq,
    check_inputs a b C reg = Ok tt ->
    fgt 1 stopThr = false \/ maxIter < 1 ->
    sinkhorn_epsilon_scaling fexp flog a b C reg maxIter maxInnerIter tau scaling_base
      scaling_coef stopThr verbose log warm_start eval_freq print_freq
    = Raise UnboundLocalError.
Proof.
  intros fexp flog a b C reg maxIter maxInnerIter tau scaling_base scaling_coef stopThr
         verbose log warm_start eval_freq print_freq Hv Hg.
  unfold sinkhorn_epsilon_scaling, bind. rewrite Hv.
  destruct (Z.to_nat maxIter) as [|fuel] eqn:Ef; [reflexivity|].
  cbn [eps_loop eps_init es_err es_it].
  destruct Hg as [Hg|Hg]; [rewrite Hg; reflexivity|lia].
Qed.

Lemma epsilon_scaling_without_pass_raises_witness :
  sinkhorn_epsilon_scaling Reference.exp_ref Reference.log_ref
    Scenario.a Scenario.b Scenario.C Scenario.reg 0 100 1e3%float 0.75%float None
    1e-9%float false true None 10 200 = Raise UnboundLocalError.
Proof.
  apply epsilon_scaling_without_pass_raises.
  - reflexivity.
  - right. lia.
Defined.

(** ** A zero [eval_freq] *)

Lemma stab_loop_zero_eval_freq fexp flog a b C reg maxIter tau stopThr verbose print_freq
    fuel st :
  fgt (ss_err st) stopThr = true ->
  ss_it st <= maxIter ->
  stab_loop fexp flog a b C reg maxIter tau stopThr verbose true 0 print_freq (S fuel) st
  = Raise ZeroDivisionError.
Proof.
  intros Hs Hm. cbn [stab_loop]. rewrite Hs.
  replace (ss_it st <=? maxIter) with true by (symmetry; apply Z.leb_le; lia).
  cbn [andb]. unfold stab_body, bind.
  destruct (knopp_update _ _ _ _) as [u v].
  destruct (absorb _ _ _ _ _ _ _ _ _) as [[[[[al' be'] u'] v'] K'] ab].
  reflexivity.
Qed.

Lemma stab_init_counters fexp C reg warm_start :
  ss_err (stab_init fexp C reg warm_start) = 1%float /\
  ss_it (stab_init fexp C reg warm_start) = 1.
Proof. unfold stab_init. destruct warm_start as [[al be]|]; split; reflexivity. Qed.

(** X4: with its log enabled and [eval_freq = 0], the stabilized solver
    raises [ZeroDivisionError] in its first pass, whenever the assertions
    pass and the loop is entered. *)
Theorem stabilized_zero_eval_freq_raises :
  forall fexp flog a b C reg maxIter tau stopThr verbose warm_start print_freq,
    check_inputs a b C reg = Ok tt ->
    fgt 1 stopThr = true ->
    1 <= maxIter ->
    sinkhorn_stabilized fexp flog a b C reg maxIter tau stopThr verbose true warm_start
      0 print_freq = Raise ZeroDivisionError.
Proof.
  intros fexp flog a b C reg maxIter tau stopThr verbose ws pf Hv Hs Hm.
  unfold sinkhorn_stabilized, bind. rewrite Hv.
  destruct (Z.to_nat maxIter) as [|fuel] eqn:Ef; [lia|].
  destruct (stab_init_counters fexp C reg ws) as [He Hi].
  rewrite stab_loop_zero_eval_freq; [reflexivity|rewrite He; exact Hs|rewrite Hi; exact Hm].
Qed.

Lemma stabilized_zero_eval_freq_raises_witness :
  sinkhorn_stabilized Reference.exp_ref Reference.log_ref
    Scenario.a Scenario.b Scenario.C Scenario.reg 1000 1e3%float 1e-9%float false true
    None 0 200 = Raise ZeroDivisionError.
Proof.
  apply stabilized_zero_eval_freq_raises.
  - reflexivity.
  - reflexivity.
  - lia.
Defined.

(** X5: the controller always asks its inner solver for a log, so
    [eval_freq = 0] makes it raise [ZeroDivisionError] in the first inner
    solve, with or without its own log, as soon as both loops are entered
    and the first regularization is positive. *)
Theorem epsilon_scaling_zero_eval_freq_raises :
  forall fexp flog a b C reg maxIter maxInnerIter tau scaling_base scaling_coef stopThr
         verbose log warm_start print_freq,
    check_inputs a b C reg = Ok tt ->
    fgt (default_scaling_coef C reg scaling_coef) 0 = true ->
    fgt 1 stopThr = true ->
    1 <= maxIter ->
    1 <= maxInnerIter ->
    sinkhorn_epsilon_scaling fexp flog a b C reg maxIter maxInnerIter tau scaling_base
      scaling_coef stopThr verbose log warm_start 0 print_freq
    = Raise ZeroDivisionError.
Proof.
  intros fexp flog a b C reg maxIter maxInnerIter tau scaling_base scaling_coef stopThr
         verbose log warm_start print_freq Hv Hsc Hs Hm Hmi.
  assert (check_inputs a b C (default_scaling_coef C reg scaling_coef) = Ok tt) as Hv'.
  { revert Hv. unfold check_inputs, assert, bind. rewrite Hsc.
    destruct (_ && _); [|discriminate]. destruct (_ && _); [|discriminate].
    destruct (fgt reg 0); [tauto|discriminate]. }
  unfold sinkhorn_epsilon_scaling, bind. rewrite Hv.
  destruct (Z.to_nat maxIter) as [|fuel] eqn:Ef; [lia|].
  cbn [eps_loop eps_init es_err es_it]. rewrite Hs.
  replace (1 <=? maxIter) with true by (symmetry; apply Z.leb_le; lia).
  cbn [andb bind]. unfold eps_body, bind, get_reg, eps_init.
  cbn [es_it es_running_reg es_warm Z.eqb Pos.eqb].
  unfold sinkhorn_stabilized, bind. rewrite Hv'.
  destruct (Z.to_nat maxInnerIter) as [|fuel'] eqn:Ef'; [lia|].
  rewrite stab_loop_zero_eval_freq; [reflexivity|exact Hs|cbn; exact Hmi].
Qed.

Lemma epsilon_scaling_zero_eval_freq_raises_witness :
  sinkhorn_epsilon_scaling Reference.exp_ref Reference.log_ref
    Scenario.a Scenario.b Scenario.C Scenario.reg 100 100 1e3%float 0.75%float None
    1e-9%float false true None 0 200 = Raise ZeroDivisionError.
Proof.
  apply epsilon_scaling_zero_eval_freq_raises.
  - reflexivity.
  - reflexivity.
  - reflexivity.
  - lia.
  - lia.
Defined.

(** ** Warm starts and budget of the controller *)

Section EpsMoreFacts.

Variables (fexp flog : float -> float).
Variables (a b : vec) (C : tensor2) (reg : float).
Variables (maxIter maxInnerIter : Z) (tau scaling_base scaling_coef stopThr : float)
          (verbose log : bool) (eval_freq print_freq : Z).

Let reach := eps_reach fexp flog a b C reg maxIter maxInnerIter tau scaling_base
               scaling_coef stopThr verbose log eval_freq print_freq.

Lemma eps_reach_warm st :
  reach st ->
  es_warm st =
    match es_last st with
    | None => None
    | Some (_, lg) => Some (log_alpha lg, log_beta lg)
    end.
Proof.
  subst reach. induction 1 as [ws|st st' Hr IH G B]; [reflexivity|].
  apply eps_body_ok in B. destruct B as (P & lg & _ & _ & _ & _ & Hlast & Hw & _).
  rewrite Hlast. exact Hw.
Qed.

Lemma eps_reach_budget st :
  reach st ->
  es_it st <= Z.max 1 (maxIter + 1) /\
  (es_last st <> None -> es_errs st <> []).
Proof.
  subst reach. induction 1 as [ws|st st' Hr [IH1 IH2] G B].
  - cbn. split; [lia|congruence].
  - apply eps_body_ok in B. destruct B as (P & lg & _ & _ & _ & Hit & _ & _ & _ & He).
    unfold eps_guard in G. apply andb_prop in G. destruct G as [_ G].
    apply Z.leb_le in G. rewrite Hit, He. split; [lia|].
    intros _ E. apply app_eq_nil in E. destruct E; discriminate.
Qed.

End EpsMoreFacts.

(** X6: every inner solve but the first is warm-started with the potentials
    [alpha], [beta] that the previous inner solve returned in its log; the
    first one gets no warm start. *)
Theorem epsilon_scaling_chains_warm_starts :
  forall fexp flog a b C reg maxIter maxInnerIter tau scaling_base scaling_coef stopThr
         verbose log eval_freq print_freq st st',
    eps_reach fexp flog a b C reg maxIter maxInnerIter tau scaling_base scaling_coef
      stopThr verbose log eval_freq print_freq st ->
    eps_body fexp flog a b C reg maxInnerIter tau scaling_base scaling_coef stopThr
      verbose log eval_freq print_freq st = Ok st' ->
    let warm :=
      match es_last st with
      | None => None
      | Some (_, previous) => Some (log_alpha previous, log_beta previous)
      end in
    exists P lg,
      sinkhorn_stabilized fexp flog a b C
        (get_reg scaling_coef scaling_base (es_it st) reg (es_running_reg st))
        maxInnerIter tau stopThr false true warm eval_freq print_freq = Ok (P, Some lg) /\
      es_last st' = Some (P, lg).
Proof.
  intros fexp flog a b C reg maxIter maxInnerIter tau scaling_base scaling_coef stopThr
         verbose log eval_freq print_freq st st' R B warm.
  apply eps_reach_warm in R. apply eps_body_ok in B.
  destruct B as (P & lg & Hs & _ & _ & _ & Hlast & _).
  exists P, lg. subst warm. rewrite <- R. split; assumption.
Qed.

(** The first two passes on the scenario of section 8: the first inner solve
    has no warm start, the second starts from the potentials of the first. *)
Lemma epsilon_scaling_chains_warm_starts_witness :
  let body :=
    eps_body Reference.exp_ref Reference.log_ref Scenario.a Scenario.b Scenario.C
      Scenario.reg 100 1e3%float 0.75%float 1.1%float 1e-9%float false true 10 200 in
  exists st1 P1 lg1 st2 P2 lg2,
    body (eps_init 1.1%float None) = Ok st1 /\
    sinkhorn_stabilized Reference.exp_ref Reference.log_ref Scenario.a Scenario.b
      Scenario.C 1.1%float 100 1e3%float 1e-9%float false true None 10 200
    = Ok (P1, Some lg1) /\
    es_last st1 = Some (P1, lg1) /\
    body st1 = Ok st2 /\
    sinkhorn_stabilized Reference.exp_ref Reference.log_ref Scenario.a Scenario.b
      Scenario.C
      (get_reg 1.1%float 0.75%float (es_it st1) Scenario.reg (es_running_reg st1))
      100 1e3%float 1e-9%float false true (Some (log_alpha lg1, log_beta lg1)) 10 200
    = Ok (P2, Some lg2) /\
    es_last st2 = Some (P2, lg2).
Proof.
  intros body.
  set (st0 := eps_init 1.1%float None).
  destruct (body st0) as [st1|e] eqn:E1; [|vm_compute in E1; discriminate].
  destruct (body st1) as [st2|e] eqn:E2.
  2:{ pose proof E1 as V. vm_compute in V. injection V as V. subst st1.
      vm_compute in E2. discriminate. }
  assert (eps_guard 5 1e-9%float st1 = true) as G1.
  { pose proof E1 as V. vm_compute in V. injection V as V. subst st1.
    vm_compute. reflexivity. }
  pose proof (eps_reach_init Reference.exp_ref Reference.log_ref Scenario.a Scenario.b
                Scenario.C Scenario.reg 5 100 1e3%float 0.75%float 1.1%float 1e-9%float
                false true 10 200 None) as R0.
  fold st0 in R0.
  pose proof (eps_reach_step _ _ _ _ _ _ _ _ _ _ _ _ _ _ _ _ st0 st1 R0 eq_refl E1) as R1.
  destruct (epsilon_scaling_chains_warm_starts _ _ _ _ _ _ _ _ _ _ _ _ _ _ _ _ st0 st1
              R0 E1) as (P1 & lg1 & H1 & L1).
  pose proof (epsilon_scaling_chains_warm_starts _ _ _ _ _ _ _ _ _ _ _ _ _ _ _ _ st1 st2
              R1 E2) as H.
  cbv zeta in H. rewrite L1 in H. destruct H as (P2 & lg2 & H2 & L2).
  exists st1, P1, lg1, st2, P2, lg2.
  split; [reflexivity|]. split; [exact H1|]. split; [exact L1|].
  split; [exact E2|]. split; [exact H2|exact L2].
Defined.

(** X7: when the controller returns, it returns a log, and the trace of
    gaps in it has one entry per pass: at least one and at most [maxIter]. *)
Theorem epsilon_scaling_respects_budget :
  forall fexp flog a b C reg maxIter maxInnerIter tau scaling_base scaling_coef stopThr
         verbose log warm_start eval_freq print_freq P olog,
    sinkhorn_epsilon_scaling fexp flog a b C reg maxIter maxInnerIter tau scaling_base
      scaling_coef stopThr verbose log warm_start eval_freq print_freq = Ok (P, olog) ->
    exists lg,
      olog = Some lg /\
      1 <= Z.of_nat (length (elog_err lg)) <= maxIter.
Proof.
  intros fexp flog a b C reg maxIter maxInnerIter tau scaling_base scaling_coef stopThr
         verbose log warm_start eval_freq print_freq P olog H.
  unfold sinkhorn_epsilon_scaling, bind in H.
  destruct (check_inputs a b C reg); [|discriminate].
  destruct (eps_loop _ _ _ _ _ _ _ _ _ _ _ _ _ _ _ _ _ _) as [st|e] eqn:L; [|discriminate].
  pose proof (eps_loop_reach _ _ _ _ _ _ _ _ _ _ _ _ _ _ _ _ _ _ st
                (eps_reach_init _ _ _ _ _ _ _ _ _ _ _ _ _ _ _ _ warm_start) L) as R.
  pose proof (eps_reach_budget _ _ _ _ _ _ _ _ _ _ _ _ _ _ _ _ st R) as [Hb Hne].
  apply eps_reach_gap in R. destruct R as (Hit & _ & _ & Hg).
  destruct (es_last st) as [[P0 ilog]|]; [|discriminate].
  destruct Hg as (_ & Hlog & _). subst log. inversion H; subst.
  eexists. split; [reflexivity|]. cbn [elog_err].
  assert (es_errs st <> []) as Hn by (apply Hne; discriminate).
  destruct (es_errs st) as [|e0 l]; [congruence|]. cbn [length] in *. lia.
Qed.

Lemma epsilon_scaling_respects_budget_witness :
  exists P lg,
    sinkhorn_epsilon_scaling Reference.exp_ref Reference.log_ref
      Scenario.a Scenario.b Scenario.C Scenario.reg 5 100 1e3%float 0.75%float None
      1e-9%float false true None 10 200 = Ok (P, Some lg) /\
    1 <= Z.of_nat (length (elog_err lg)) <= 5.
Proof.
  destruct (sinkhorn_epsilon_scaling Reference.exp_ref Reference.log_ref
      Scenario.a Scenario.b Scenario.C Scenario.reg 5 100 1e3%float 0.75%float None
      1e-9%float false true None 10 200) as [[P olog]|e] eqn:E;
    [|vm_compute in E; discriminate].
  destruct (epsilon_scaling_respects_budget _ _ _ _ _ _ _ _ _ _ _ _ _ _ _ _ _ _ _ E)
    as (lg & -> & Hl).
  exists P, lg. split; [reflexivity|exact Hl].
Defined.

(** ** The kernel of the stabilized solver *)

Lemma stab_body_kernel fexp flog a b C reg tau verbose log eval_freq print_freq st st' :
  stab_body fexp flog a b C reg tau verbose log eval_freq print_freq st = Ok st' ->
  ss_K st = spec_kernel fexp C reg (ss_alpha st) (ss_beta st) ->
  ss_K st' = spec_kernel fexp C reg (ss_alpha st') (ss_beta st').
Proof.
  unfold stab_body, absorb, bind. intros H HK.
  destruct (knopp_update a b (ss_K st) (ss_u st)) as [u v].
  destruct (fgt (abs_sum u) tau || fgt (abs_sum v) tau);
    destruct (flag_and_multiple log (ss_it st) eval_freq); try discriminate;
    destruct (flag_and_multiple verbose (ss_it st) print_freq); try discriminate;
    inversion H; subst st'; cbn [ss_K ss_alpha ss_beta].
  - apply update_K_spec.
  - exact HK.
Qed.

(** X8: the stabilized solver keeps its kernel consistent with its
    potentials: after any number of passes, from any warm start,
    [K_ij = exp((alpha_i + beta_j - C_ij) / reg)] for the current [alpha],
    [beta]. *)
Theorem stabilized_kernel_consistent :
  forall fexp flog a b C reg maxIter tau stopThr verbose log eval_freq print_freq
         warm_start fuel st,
    stab_loop fexp flog a b C reg maxIter tau stopThr verbose log eval_freq print_freq
      fuel (stab_init fexp C reg warm_start) = Ok st ->
    ss_K st = spec_kernel fexp C reg (ss_alpha st) (ss_beta st).
Proof.
  intros fexp flog a b C reg maxIter tau stopThr verbose log eval_freq print_freq
         warm_start fuel.
  assert (ss_K (stab_init fexp C reg warm_start) =
          spec_kernel fexp C reg (ss_alpha (stab_init fexp C reg warm_start))
            (ss_beta (stab_init fexp C reg warm_start))) as H0.
  { unfold stab_init. destruct warm_start as [[al be]|]; cbn; apply update_K_spec. }
  revert H0. generalize (stab_init fexp C reg warm_start).
  induction fuel as [|fuel IH]; cbn [stab_loop]; intros st0 H0 st H.
  - inversion H; subst. exact H0.
  - destruct (fgt (ss_err st0) stopThr && (ss_it st0 <=? maxIter)).
    + unfold bind in H.
      destruct (stab_body _ _ _ _ _ _ _ _ _ _ _ st0) as [st1|] eqn:B; [|discriminate].
      apply (IH st1); [|exact H]. eapply stab_body_kernel; eauto.
    + inversion H; subst. exact H0.
Qed.

(** A run with absorptions: cost 1000 at [reg = 1]. *)
Lemma stabilized_kernel_consistent_witness :
  exists st,
    stab_loop Reference.exp_ref Reference.log_ref [1%float] [1%float]
      (mkT2 1 1 [[1000%float]]) 1%float 100 1e3%float 1e-9%float false true 10 200
      100 (stab_init Reference.exp_ref (mkT2 1 1 [[1000%float]]) 1%float None) = Ok st /\
    ss_K st = spec_kernel Reference.exp_ref (mkT2 1 1 [[1000%float]]) 1%float
                (ss_alpha st) (ss_beta st).
Proof.
  destruct (stab_loop Reference.exp_ref Reference.log_ref [1%float] [1%float]
      (mkT2 1 1 [[1000%float]]) 1%float 100 1e3%float 1e-9%float false true 10 200
      100 (stab_init Reference.exp_ref (mkT2 1 1 [[1000%float]]) 1%float None))
    as [st|e] eqn:E; [|vm_compute in E; discriminate].
  exists st. split; [reflexivity|].
  exact (stabilized_kernel_consistent _ _ _ _ _ _ _ _ _ _ _ _ _ _ _ _ E).
Defined.

(** ** What the flags change *)

Lemma flag_and_multiple_quiet flag it freq :
  (flag = true -> freq <> 0) -> exists r, flag_and_multiple flag it freq = Ok r.
Proof.
  unfold flag_and_multiple. intros H. destruct flag; [|eauto].
  destruct (freq =? 0) eqn:E; [apply Z.eqb_eq in E; tauto|eauto].
Qed.

Section Flags.

Variables (fexp flog : float -> float).
Variables (a b : vec) (C K : tensor2) (reg : float) (maxIter : Z) (tau : float).

(** Printing: two settings of [(verbose, print_freq)] under which the
    modulus does not raise. *)
Variables (verbose verbose' : bool) (print_freq print_freq' : Z).
Hypothesis quiet : verbose = true -> print_freq <> 0.
Hypothesis quiet' : verbose' = true -> print_freq' <> 0.

Lemma knopp_loop_verbose stopThr log eval_freq fuel : forall st,
  knopp_loop a b K maxIter stopThr verbose log eval_freq print_freq fuel st =
  knopp_loop a b K maxIter stopThr verbose' log eval_freq print_freq' fuel st.
Proof.
  induction fuel as [|fuel IH]; intros st; cbn [knopp_loop]; [reflexivity|].
  destruct (fgt (ks_err st) stopThr && (ks_it st <=? maxIter)); [|reflexivity].
  destruct (knopp_update a b K (ks_u st)) as [u v].
  destruct (any_isnan u || any_isnan v || any_isinf u || any_isinf v); [reflexivity|].
  unfold bind. destruct (flag_and_multiple log (ks_it st) eval_freq); [|reflexivity].
  destruct (flag_and_multiple_quiet verbose (ks_it st) print_freq quiet) as [r ->].
  destruct (flag_and_multiple_quiet verbose' (ks_it st) print_freq' quiet') as [r' ->].
  apply IH.
Qed.

Lemma stab_loop_verbose stopThr log eval_freq fuel : forall st,
  stab_loop fexp flog a b C reg maxIter tau stopThr verbose log eval_freq print_freq
    fuel st =
  stab_loop fexp flog a b C reg maxIter tau stopThr verbose' log eval_freq print_freq'
    fuel st.
Proof.
  induction fuel as [|fuel IH]; intros st; cbn [stab_loop]; [reflexivity|].
  destruct (fgt (ss_err st) stopThr && (ss_it st <=? maxIter)); [|reflexivity].
  assert (stab_body fexp flog a b C reg tau verbose log eval_freq print_freq st =
          stab_body fexp flog a b C reg tau verbose' log eval_freq print_freq' st) as ->.
  { unfold stab_body, bind.
    destruct (knopp_update a b (ss_K st) (ss_u st)) as [u v].
    destruct (absorb _ _ _ _ _ _ _ _ _) as [[[[[al be] u'] v'] K'] ab].
    destruct (flag_and_multiple log (ss_it st) eval_freq); [|reflexivity].
    destruct (flag_and_multiple_quiet verbose (ss_it st) print_freq quiet) as [r ->].
    destruct (flag_and_multiple_quiet verbose' (ss_it st) print_freq' quiet') as [r' ->].
    reflexivity. }
  unfold bind. destruct (stab_body _ _ _ _ _ _ _ _ _ _ _ st); [apply IH|reflexivity].
Qed.

(** The log switched off: the threshold and [eval_freq] play no part once the
    loop is entered. *)
Variables (stopThr stopThr' : float) (eval_freq eval_freq' : Z).
Hypothesis below : fgt 1 stopThr = true.
Hypothesis below' : fgt 1 stopThr' = true.

Lemma knopp_loop_without_log vb pf fuel : forall st,
  ks_err st = 1%float ->
  knopp_loop a b K maxIter stopThr vb false eval_freq pf fuel st =
  knopp_loop a b K maxIter stopThr' vb false eval_freq' pf fuel st.
Proof.
  induction fuel as [|fuel IH]; intros st He; cbn [knopp_loop]; [reflexivity|].
  rewrite He, below, below'.
  destruct (true && (ks_it st <=? maxIter)); [|reflexivity].
  destruct (knopp_update a b K (ks_u st)) as [u v].
  destruct (any_isnan u || any_isnan v || any_isinf u || any_isinf v); [reflexivity|].
  cbn [flag_and_multiple bind].
  destruct (flag_and_multiple vb (ks_it st) pf); [|reflexivity].
  cbn [bind]. apply IH. reflexivity.
Qed.

Lemma stab_loop_without_log vb pf fuel : forall st,
  ss_err st = 1%float ->
  stab_loop fexp flog a b C reg maxIter tau stopThr vb false eval_freq pf fuel st =
  stab_loop fexp flog a b C reg maxIter tau stopThr' vb false eval_freq' pf fuel st.
Proof.
  induction fuel as [|fuel IH]; intros st He; cbn [stab_loop]; [reflexivity|].
  rewrite He, below, below'.
  destruct (true && (ss_it st <=? maxIter)); [|reflexivity].
  unfold stab_body.
  destruct (knopp_update a b (ss_K st) (ss_u st)) as [u v].
  destruct (absorb _ _ _ _ _ _ _ _ _) as [[[[[al be] u'] v'] K'] ab].
  cbn [flag_and_multiple bind].
  destruct (flag_and_multiple vb (ss_it st) pf); [|reflexivity].
  cbn [bind]. apply IH. rewrite <- He. reflexivity.
Qed.

End Flags.

Lemma stabilized_verbose fexp flog a b C reg maxIter tau stopThr log warm_start eval_freq
    verbose verbose' print_freq print_freq' :
  (verbose = true -> print_freq <> 0) ->
  (verbose' = true -> print_freq' <> 0) ->
  sinkhorn_stabilized fexp flog a b C reg maxIter tau stopThr verbose log warm_start
    eval_freq print_freq =
  sinkhorn_stabilized fexp flog a b C reg maxIter tau stopThr verbose' log warm_start
    eval_freq print_freq'.
Proof.
  intros Hq Hq'. unfold sinkhorn_stabilized.
  rewrite (stab_loop_verbose fexp flog a b C reg maxIter tau verbose verbose'
             print_freq print_freq' Hq Hq').
  reflexivity.
Qed.

Lemma eps_loop_verbose fexp flog a b C reg maxIter maxInnerIter tau scaling_base
    scaling_coef stopThr log eval_freq verbose verbose' print_freq print_freq' fuel :
  (verbose = true -> print_freq <> 0) ->
  (verbose' = true -> print_freq' <> 0) ->
  forall st,
    eps_loop fexp flog a b C reg maxIter maxInnerIter tau scaling_base scaling_coef
      stopThr verbose log eval_freq print_freq fuel st =
    eps_loop fexp flog a b C reg maxIter maxInnerIter tau scaling_base scaling_coef
      stopThr verbose' log eval_freq print_freq' fuel st.
Proof.
  intros Hq Hq'. induction fuel as [|fuel IH]; intros st; cbn [eps_loop]; [reflexivity|].
  destruct (fgt (es_err st) stopThr && (es_it st <=? maxIter)); [|reflexivity].
  assert (eps_body fexp flog a b C reg maxInnerIter tau scaling_base scaling_coef stopThr
            verbose log eval_freq print_freq st =
          eps_body fexp flog a b C reg maxInnerIter tau scaling_base scaling_coef stopThr
            verbose' log eval_freq print_freq' st) as ->.
  { unfold eps_body.
    rewrite (stabilized_verbose fexp flog a b C _ maxInnerIter tau stopThr true
               (es_warm st) eval_freq false false print_freq print_freq')
      by discriminate.
    unfold bind.
    destruct (sinkhorn_stabilized _ _ _ _ _ _ _ _ _ _ _ _ _ _) as [[P [lg|]]|];
      try reflexivity.
    destruct log; [|reflexivity].
    destruct (flag_and_multiple_quiet verbose (es_it st) print_freq Hq) as [r ->].
    destruct (flag_and_multiple_quiet verbose' (es_it st) print_freq' Hq') as [r' ->].
    reflexivity. }
  unfold bind. destruct (eps_body _ _ _ _ _ _ _ _ _ _ _ _ _ _ _ st); [apply IH|reflexivity].
Qed.

(** X9: printing changes nothing.  Two calls of a solver that differ only in
    [verbose] and [print_freq] return the same result, as long as neither
    has [verbose] set together with [print_freq = 0] (then [it % print_freq]
    raises). *)
Theorem printing_changes_nothing :
  forall fexp flog a b C reg maxIter stopThr log eval_freq
         verbose verbose' print_freq print_freq',
    (verbose = true -> print_freq <> 0) ->
    (verbose' = true -> print_freq' <> 0) ->
    (forall warm_start,
        sinkhorn_knopp fexp flog a b C reg maxIter stopThr verbose log warm_start
          eval_freq print_freq =
        sinkhorn_knopp fexp flog a b C reg maxIter stopThr verbose' log warm_start
          eval_freq print_freq') /\
    (forall tau warm_start,
        sinkhorn_stabilized fexp flog a b C reg maxIter tau stopThr verbose log warm_start
          eval_freq print_freq =
        sinkhorn_stabilized fexp flog a b C reg maxIter tau stopThr verbose' log warm_start
          eval_freq print_freq') /\
    (forall maxInnerIter tau scaling_base scaling_coef warm_start,
        sinkhorn_epsilon_scaling fexp flog a b C reg maxIter maxInnerIter tau scaling_base
          scaling_coef stopThr verbose log warm_start eval_freq print_freq =
        sinkhorn_epsilon_scaling fexp flog a b C reg maxIter maxInnerIter tau scaling_base
          scaling_coef stopThr verbose' log warm_start eval_freq print_freq').
Proof.
  intros fexp flog a b C reg maxIter stopThr log eval_freq verbose verbose' print_freq
         print_freq' Hq Hq'.
  split; [|split].
  - intros ws. unfold sinkhorn_knopp.
    rewrite (knopp_loop_verbose a b (knopp_kernel fexp C reg) maxIter verbose verbose'
               print_freq print_freq' Hq Hq').
    reflexivity.
  - intros tau ws. now apply stabilized_verbose.
  - intros maxInnerIter tau scaling_base scaling_coef ws. unfold sinkhorn_epsilon_scaling.
    rewrite (eps_loop_verbose fexp flog a b C reg maxIter maxInnerIter tau scaling_base
               (default_scaling_coef C reg scaling_coef) stopThr log eval_freq
               verbose verbose' print_freq print_freq' _ Hq Hq').
    reflexivity.
Qed.

Lemma printing_changes_nothing_witness :
  sinkhorn_knopp Reference.exp_ref Reference.log_ref Scenario.a Scenario.b Scenario.C
    Scenario.reg 1000 1e-9%float true true None 10 200 =
  sinkhorn_knopp Reference.exp_ref Reference.log_ref Scenario.a Scenario.b Scenario.C
    Scenario.reg 1000 1e-9%float false true None 10 0.
Proof.
  assert (true = true -> 200 <> 0) as Hq by (intros _; lia).
  assert (false = true -> 0 <> 0) as Hq' by discriminate.
  exact (proj1 (printing_changes_nothing Reference.exp_ref Reference.log_ref Scenario.a
                  Scenario.b Scenario.C Scenario.reg 1000 1e-9%float true 10
                  true false 200 0 Hq Hq') None).
Defined.

(** X10: with [log=False] neither the plain nor the stabilized solver looks
    at the residual: two calls that differ only in [stopThr] and [eval_freq]
    return the same result, as long as both thresholds are below 1 (so that
    the loop is entered). *)
Theorem without_log_threshold_is_ignored :
  forall fexp flog a b C reg maxIter verbose warm_start print_freq
         stopThr stopThr' eval_freq eval_freq',
    fgt 1 stopThr = true ->
    fgt 1 stopThr' = true ->
    sinkhorn_knopp fexp flog a b C reg maxIter stopThr verbose false warm_start
      eval_freq print_freq =
    sinkhorn_knopp fexp flog a b C reg maxIter stopThr' verbose false warm_start
      eval_freq' print_freq /\
    (forall tau warm,
        sinkhorn_stabilized fexp flog a b C reg maxIter tau stopThr verbose false warm
          eval_freq print_freq =
        sinkhorn_stabilized fexp flog a b C reg maxIter tau stopThr' verbose false warm
          eval_freq' print_freq).
Proof.
  intros fexp flog a b C reg maxIter verbose ws pf s s' ef ef' Hs Hs'. split.
  - unfold sinkhorn_knopp.
    rewrite (knopp_loop_without_log a b (knopp_kernel fexp C reg) maxIter s s' ef ef'
               Hs Hs' verbose pf (Z.to_nat maxIter) (knopp_init C ws)).
    + reflexivity.
    + unfold knopp_init. destruct ws as [[u v]|]; reflexivity.
  - intros tau warm. unfold sinkhorn_stabilized.
    rewrite (stab_loop_without_log fexp flog a b C reg maxIter tau s s' ef ef'
               Hs Hs' verbose pf (Z.to_nat maxIter) (stab_init fexp C reg warm)).
    + reflexivity.
    + unfold stab_init. destruct warm as [[al be]|]; reflexivity.
Qed.

Lemma without_log_threshold_is_ignored_witness :
  sinkhorn_knopp Reference.exp_ref Reference.log_ref Scenario.a Scenario.b Scenario.C
    Scenario.reg 1000 1e-9%float false false None 10 200 =
  sinkhorn_knopp Reference.exp_ref Reference.log_ref Scenario.a Scenario.b Scenario.C
    Scenario.reg 1000 0.5%float false false None 1 200.
Proof.
  exact (proj1 (without_log_threshold_is_ignored Reference.exp_ref Reference.log_ref
                  Scenario.a Scenario.b Scenario.C Scenario.reg 1000 false None 200
                  1e-9%float 0.5%float 10 1 eq_refl eq_refl)).
Defined.

(** ** Residuals *)

Lemma nonneg_square d : nonneg (d * d)%float.
Proof.
  apply nonneg_spec. rewrite mul_spec. unfold SF64mul.
  destruct (Prim2SF d) as [[]|[]| |[] m e]; try reflexivity;
    apply sclear_not_sneg, round_aux_sclear.
Qed.

Lemma nonneg_sum_squares l : nonneg (tsum (map (fun d => (d * d)%float) l)).
Proof.
  apply nonneg_tsum. apply Forall_map. apply Forall_forall. intros d _.
  apply nonneg_square.
Qed.

Lemma knopp_loop_errs_nonneg a b K maxIter stopThr verbose log eval_freq print_freq fuel :
  forall st st',
    knopp_loop a b K maxIter stopThr verbose log eval_freq print_freq fuel st = Ok st' ->
    Forall nonneg (ks_errs st) -> Forall nonneg (ks_errs st').
Proof.
  induction fuel as [|fuel IH]; cbn [knopp_loop]; intros st st' H He.
  - inversion H; subst. exact He.
  - destruct (fgt (ks_err st) stopThr && (ks_it st <=? maxIter)).
    2:{ inversion H; subst. exact He. }
    destruct (knopp_update a b K (ks_u st)) as [u v].
    destruct (any_isnan u || any_isnan v || any_isinf u || any_isinf v).
    { inversion H; subst. exact He. }
    unfold bind in H.
    destruct (flag_and_multiple log (ks_it st) eval_freq) as [do_eval|]; [|discriminate].
    destruct (flag_and_multiple verbose (ks_it st) print_freq); [|discriminate].
    apply IH in H; [exact H|]. cbn [ks_errs]. destruct do_eval; [|exact He].
    apply Forall_app. split; [exact He|]. constructor; [|constructor].
    apply nonneg_sum_squares.
Qed.

Lemma stab_loop_errs_nonneg fexp flog a b C reg maxIter tau stopThr verbose log eval_freq
    print_freq fuel :
  forall st st',
    stab_loop fexp flog a b C reg maxIter tau stopThr verbose log eval_freq print_freq
      fuel st = Ok st' ->
    Forall nonneg (ss_errs st) -> Forall nonneg (ss_errs st').
Proof.
  induction fuel as [|fuel IH]; cbn [stab_loop]; intros st st' H He.
  - inversion H; subst. exact He.
  - destruct (fgt (ss_err st) stopThr && (ss_it st <=? maxIter)).
    2:{ inversion H; subst. exact He. }
    unfold bind in H.
    destruct (stab_body _ _ _ _ _ _ _ _ _ _ _ st) as [st1|] eqn:B; [|discriminate].
    apply IH in H; [exact H|]. clear H.
    unfold stab_body, bind in B.
    destruct (knopp_update a b (ss_K st) (ss_u st)) as [u v].
    destruct (absorb _ _ _ _ _ _ _ _ _) as [[[[[al be] u'] v'] K'] ab].
    destruct (flag_and_multiple log (ss_it st) eval_freq) as [do_eval|]; [|discriminate].
    destruct (flag_and_multiple verbose (ss_it st) print_freq); [|discriminate].
    inversion B; subst st1. cbn [ss_errs]. destruct do_eval; [|exact He].
    apply Forall_app. split; [exact He|]. constructor; [|constructor].
    apply nonneg_sum_squares.
Qed.

(** X11: no residual logged by the plain or by the stabilized solver is
    negative (each is a sum of squares; it may be NaN or infinite). *)
Theorem logged_residuals_not_negative :
  forall fexp flog a b C reg maxIter stopThr verbose log eval_freq print_freq P lg,
    (forall warm_start,
        sinkhorn_knopp fexp flog a b C reg maxIter stopThr verbose log warm_start
          eval_freq print_freq = Ok (P, Some lg) ->
        Forall nonneg (log_err lg)) /\
    (forall tau warm_start,
        sinkhorn_stabilized fexp flog a b C reg maxIter tau stopThr verbose log warm_start
          eval_freq print_freq = Ok (P, Some lg) ->
        Forall nonneg (log_err lg)).
Proof.
  intros fexp flog a b C reg maxIter stopThr verbose log eval_freq print_freq P lg. split.
  - intros ws H. unfold sinkhorn_knopp, bind in H.
    destruct (check_inputs a b C reg); [|discriminate].
    destruct (knopp_loop _ _ _ _ _ _ _ _ _ _ _) as [st|] eqn:L; [|discriminate].
    apply knopp_loop_errs_nonneg in L.
    + destruct log; inversion H; subst. exact L.
    + unfold knopp_init. destruct ws as [[u v]|]; constructor.
  - intros tau ws H. unfold sinkhorn_stabilized, bind in H.
    destruct (check_inputs a b C reg); [|discriminate].
    destruct (stab_loop _ _ _ _ _ _ _ _ _ _ _ _ _ _ _) as [st|] eqn:L; [|discriminate].
    apply stab_loop_errs_nonneg in L.
    + destruct log; inversion H; subst. exact L.
    + unfold stab_init. destruct ws as [[al be]|]; constructor.
Qed.

Lemma logged_residuals_not_negative_witness :
  exists P lg,
    sinkhorn_stabilized Reference.exp_ref Reference.log_ref Scenario.a Scenario.b
      Scenario.C Scenario.reg 1000 1e3%float 1e-9%float false true None 10 200
    = Ok (P, Some lg) /\
    log_err lg <> [] /\ Forall nonneg (log_err lg).
Proof.
  destruct (sinkhorn_stabilized Reference.exp_ref Reference.log_ref Scenario.a Scenario.b
      Scenario.C Scenario.reg 1000 1e3%float 1e-9%float false true None 10 200)
    as [[P [lg|]]|e] eqn:E; try (vm_compute in E; discriminate).
  exists P, lg. split; [reflexivity|]. split.
  - pose proof E as V. vm_compute in V. injection V as _ V. subst lg. discriminate.
  - exact (proj2 (logged_residuals_not_negative _ _ _ _ _ _ _ _ _ _ _ _ P lg) _ _ E).
Defined.

(** ** The warm start of the plain solver *)

(** X12: the plain solver never reads the [v] of its warm start once an
    iteration succeeds: if the loop is entered and the first update is
    finite, two calls that differ only in that [v] return the same result. *)
Theorem knopp_warm_start_v_is_overwritten :
  forall fexp flog a b C reg maxIter stopThr verbose log eval_freq print_freq u v v',
    fgt 1 stopThr = true ->
    1 <= maxIter ->
    finite_pair (knopp_update a b (knopp_kernel fexp C reg) u) = true ->
    sinkhorn_knopp fexp flog a b C reg maxIter stopThr verbose log (Some (u, v))
      eval_freq print_freq =
    sinkhorn_knopp fexp flog a b C reg maxIter stopThr verbose log (Some (u, v'))
      eval_freq print_freq.
Proof.
  intros fexp flog a b C reg maxIter stopThr verbose log eval_freq print_freq u v v'
         Hs Hm Hf.
  unfold sinkhorn_knopp, bind.
  destruct (check_inputs a b C reg); [|reflexivity].
  destruct (Z.to_nat maxIter) as [|fuel] eqn:Ef; [lia|].
  unfold knopp_init. cbn [knopp_loop ks_err ks_it ks_u ks_v ks_errs].
  rewrite Hs. replace (1 <=? maxIter) with true by (symmetry; apply Z.leb_le; lia).
  cbn [andb]. unfold finite_pair in Hf.
  destruct (knopp_update a b (knopp_kernel fexp C reg) u) as [u1 v1].
  cbn [fst snd] in Hf. apply negb_true_iff in Hf. rewrite Hf. reflexivity.
Qed.

Lemma knopp_warm_start_v_is_overwritten_witness :
  sinkhorn_knopp Reference.exp_ref Reference.log_ref Scenario.a Scenario.b Scenario.C
    Scenario.reg 1000 1e-9%float false true (Some ([1; 1], [1; 1]))%float 10 200 =
  sinkhorn_knopp Reference.exp_ref Reference.log_ref Scenario.a Scenario.b Scenario.C
    Scenario.reg 1000 1e-9%float false true (Some ([1; 1], [7; 0]))%float 10 200.
Proof.
  apply knopp_warm_start_v_is_overwritten.
  - reflexivity.
  - lia.
  - vm_compute. reflexivity.
Defined.

(** ** The schedule at its target *)

Lemma Prim2SF_infinity : Prim2SF infinity = S754_infinity false.
Proof. reflexivity. Qed.

Lemma is_finite_spec x :
  is_finite x = true ->
  match Prim2SF x with
  | S754_zero _ | S754_finite _ _ _ => True
  | _ => False
  end.
Proof.
  unfold is_finite. intros H. apply negb_true_iff, orb_false_iff in H.
  destruct H as [Hn Hi]. unfold is_infinity in Hi.
  rewrite eqb_spec, abs_spec, Prim2SF_infinity in Hi.
  destruct (Prim2SF x) as [s|s| |s m e] eqn:E; try exact I.
  - cbn in Hi. discriminate.
  - apply is_nan_spec in E. congruence.
Qed.

Lemma fsub_diag x : is_finite x = true -> Prim2SF (x - x)%float = S754_zero false.
Proof.
  intros H. apply is_finite_spec in H. rewrite sub_spec. unfold SF64sub.
  destruct (Prim2SF x) as [[]|s| |s m e]; try contradiction; try reflexivity.
  cbn [SFsub]. rewrite Z.sub_diag. reflexivity.
Qed.

Lemma fmul_zero_below_eps z y :
  Prim2SF z = S754_zero false -> is_finite y = true -> (z * y <? M_EPS)%float = true.
Proof.
  intros Hz Hy. apply is_finite_spec in Hy.
  rewrite ltb_spec, mul_spec, Hz, Prim2SF_M_EPS. unfold SF64mul.
  destruct (Prim2SF y) as [s|s| |s m e]; try contradiction; reflexivity.
Qed.

(** X13: the target is a fixed point of the schedule.  For a finite [reg]
    and a finite [scaling_base], [get_reg] maps [reg] to [reg] at every
    iteration but the first; so once [running_reg] has reached [reg], every
    later pass of the controller leaves it there. *)
Theorem schedule_stays_at_target :
  forall fexp flog a b C reg maxInnerIter tau scaling_base scaling_coef stopThr
         verbose log eval_freq print_freq,
    is_finite reg = true ->
    is_finite scaling_base = true ->
    (forall it, it <> 1 -> get_reg scaling_coef scaling_base it reg reg = reg) /\
    (forall st st',
        1 < es_it st ->
        es_running_reg st = reg ->
        eps_body fexp flog a b C reg maxInnerIter tau scaling_base scaling_coef stopThr
          verbose log eval_freq print_freq st = Ok st' ->
        es_running_reg st' = reg /\ 1 < es_it st').
Proof.
  intros fexp flog a b C reg maxInnerIter tau scaling_base scaling_coef stopThr
         verbose log eval_freq print_freq Hr Hb.
  assert (forall it, it <> 1 -> get_reg scaling_coef scaling_base it reg reg = reg) as G.
  { intros it Hit. unfold get_reg.
    destruct (it =? 1) eqn:E; [apply Z.eqb_eq in E; contradiction|].
    rewrite fmul_zero_below_eps; [reflexivity|apply fsub_diag; exact Hr|exact Hb]. }
  split; [exact G|].
  intros st st' Hit Hreg B. apply eps_body_ok in B.
  destruct B as (P & lg & _ & _ & Hr' & Hit' & _).
  rewrite Hr', Hreg, Hit'. split; [apply G; lia|lia].
Qed.

Lemma schedule_stays_at_target_witness :
  get_reg 1.1%float 0.75%float 2 0.1%float 0.1%float = 0.1%float.
Proof.
  assert (2 <> 1) as H by lia.
  exact (proj1 (schedule_stays_at_target Reference.exp_ref Reference.log_ref
                  Scenario.a Scenario.b Scenario.C 0.1%float 100 1e3%float 0.75%float
                  1.1%float 1e-9%float false true 10 200 eq_refl eq_refl) 2 H).
Defined.

(** ** Shapes *)

Lemma length_zipWith {A B C : Type} (f : A -> B -> C) x y :
  length (zipWith f x y) = Nat.min (length x) (length y).
Proof.
  revert y. induction x as [|a x IH]; intros [|b y]; simpl; try reflexivity.
  now rewrite IH.
Qed.

Lemma Forall_combine_snd {A B : Type} (P : B -> Prop) (x : list A) (y : list B) :
  Forall P y -> Forall (fun ab => P (snd ab)) (combine x y).
Proof.
  revert y. induction x as [|a x IH]; intros [|b y] H; simpl; try constructor.
  - inversion H; assumption.
  - apply IH. inversion H; assumption.
Qed.

Lemma length_fold_vadd n (l : list (float * vec)) : forall acc : vec,
  length acc = n ->
  Forall (fun ur => length (snd ur) = n) l ->
  length (fold_left (fun acc ur => vadd acc (vscale (fst ur) (snd ur))) l acc) = n.
Proof.
  induction l as [|ur l IH]; intros acc H0 H; simpl; [exact H0|].
  inversion H as [|ur' l' Hur Hl]. cbn beta in Hur. apply IH; [|assumption].
  unfold vadd, vscale. rewrite length_zipWith, length_map.
  rewrite <- (Nat.min_id n). f_equal; assumption.
Qed.

Lemma length_matmul_vM u K :
  Forall (fun r => length r = shape1 K) (rows K) -> length (matmul_vM u K) = shape1 K.
Proof.
  intros H. unfold matmul_vM. apply length_fold_vadd.
  - apply repeat_length.
  - apply (Forall_combine_snd (fun r => length r = shape1 K)). exact H.
Qed.

Lemma length_matmul_Mv K v : length (matmul_Mv K v) = length (rows K).
Proof. unfold matmul_Mv. apply length_map. Qed.

Lemma length_knopp_update a b K u :
  wf_tensor K ->
  length a = shape0 K -> length b = shape1 K ->
  length (fst (knopp_update a b K u)) = shape0 K /\
  length (snd (knopp_update a b K u)) = shape1 K.
Proof.
  intros [Hr Hc] Ha Hb. unfold knopp_update. cbn [fst snd]. unfold vdiv, vadds.
  rewrite !length_zipWith, !length_map, length_matmul_Mv, length_matmul_vM by assumption.
  lia.
Qed.

Lemma wf_rows_zipWith {A B : Type} (f : A -> B -> vec) (x : list A) (y : list B) n m :
  length x = n -> length y = n ->
  (forall a b, In b y -> length (f a b) = m) ->
  length (zipWith f x y) = n /\ Forall (fun r => length r = m) (zipWith f x y).
Proof.
  intros Hx Hy Hf. split; [rewrite length_zipWith; lia|].
  clear Hx Hy. revert y Hf.
  induction x as [|a x IH]; intros [|b y] Hf; simpl; try constructor.
  - apply Hf. now left.
  - apply IH. intros a' b' Hin. apply Hf. now right.
Qed.

Lemma wf_knopp_kernel fexp C reg :
  wf_tensor C ->
  wf_tensor (knopp_kernel fexp C reg) /\
  shape0 (knopp_kernel fexp C reg) = shape0 C /\
  shape1 (knopp_kernel fexp C reg) = shape1 C.
Proof.
  intros [Hr Hc]. unfold wf_tensor, knopp_kernel, tmap. cbn [shape0 shape1 rows].
  rewrite !length_map. repeat split; try assumption.
  rewrite map_map. apply Forall_map. eapply Forall_impl; [|exact Hc].
  intros r Hrl. cbn. now rewrite !length_map.
Qed.

Lemma wf_knopp_plan K u v :
  wf_tensor K -> length u = shape0 K -> length v = shape1 K ->
  wf_tensor (knopp_plan K u v).
Proof.
  intros [Hr Hc] Hu Hv. unfold wf_tensor, knopp_plan. cbn [shape0 shape1 rows].
  apply wf_rows_zipWith; try assumption.
  intros ui row Hin. rewrite length_zipWith.
  rewrite Forall_forall in Hc. rewrite (Hc row Hin). lia.
Qed.

Lemma check_inputs_lengths a b C reg :
  check_inputs a b C reg = Ok tt -> length a = shape0 C /\ length b = shape1 C.
Proof.
  unfold check_inputs, assert, bind.
  destruct (_ && _); [|discriminate].
  destruct ((shape0 C =? length a)%nat && (shape1 C =? length b)%nat) eqn:E; [|discriminate].
  apply andb_prop in E. destruct E as [E1 E2]. apply Nat.eqb_eq in E1, E2. intros _. lia.
Qed.

Lemma knopp_loop_lengths a b K maxIter stopThr verbose log eval_freq print_freq fuel :
  wf_tensor K -> length a = shape0 K -> length b = shape1 K ->
  forall st st',
    knopp_loop a b K maxIter stopThr verbose log eval_freq print_freq fuel st = Ok st' ->
    length (ks_u st) = shape0 K /\ length (ks_v st) = shape1 K ->
    length (ks_u st') = shape0 K /\ length (ks_v st') = shape1 K.
Proof.
  intros HK Ha Hb. induction fuel as [|fuel IH]; cbn [knopp_loop]; intros st st' H Hl.
  - inversion H; subst. exact Hl.
  - destruct (fgt (ks_err st) stopThr && (ks_it st <=? maxIter)).
    2:{ inversion H; subst. exact Hl. }
    pose proof (length_knopp_update a b K (ks_u st) HK Ha Hb) as Hup.
    destruct (knopp_update a b K (ks_u st)) as [u v]. cbn [fst snd] in Hup.
    destruct (any_isnan u || any_isnan v || any_isinf u || any_isinf v).
    { inversion H; subst. exact Hl. }
    unfold bind in H.
    destruct (flag_and_multiple log (ks_it st) eval_freq) as [do_eval|]; [|discriminate].
    destruct (flag_and_multiple verbose (ks_it st) print_freq); [|discriminate].
    apply IH in H; [exact H|exact Hup].
Qed.

Lemma knopp_shapes fexp flog a b C reg maxIter stopThr verbose log warm_start eval_freq
    print_freq P lg :
  wf_tensor C ->
  match warm_start with
  | Some (u0, v0) => length u0 = shape0 C /\ length v0 = shape1 C
  | None => True
  end ->
  sinkhorn_knopp fexp flog a b C reg maxIter stopThr verbose log warm_start eval_freq
    print_freq = Ok (P, lg) ->
  wf_tensor P /\ shape0 P = shape0 C /\ shape1 P = shape1 C /\
  match lg with
  | Some l => length (log_u l) = shape0 C /\ length (log_v l) = shape1 C /\
              length (log_alpha l) = shape0 C /\ length (log_beta l) = shape1 C
  | None => True
  end.
Proof.
  intros HC Hws H. unfold sinkhorn_knopp, bind in H.
  destruct (check_inputs a b C reg) as [[]|] eqn:Ec; [|discriminate].
  apply check_inputs_lengths in Ec. destruct Ec as [Ha Hb].
  destruct (wf_knopp_kernel fexp C reg HC) as (HK & H0 & H1).
  destruct (knopp_loop _ _ _ _ _ _ _ _ _ _ _) as [st|] eqn:L; [|discriminate].
  apply knopp_loop_lengths in L; try assumption; try congruence.
  2:{ rewrite H0, H1. unfold knopp_init.
      destruct warm_start as [[u0 v0]|]; cbn [ks_u ks_v]; [exact Hws|].
      unfold uniform. now rewrite !repeat_length. }
  destruct L as [Hu Hv].
  pose proof (wf_knopp_plan _ _ _ HK Hu Hv) as HP.
  destruct log; inversion H; subst; (split; [exact HP|]); cbn [shape0 shape1 knopp_plan];
    repeat split; try assumption;
    cbn [log_u log_v log_alpha log_beta]; unfold vscale, vlog_eps;
    rewrite ?length_map; congruence.
Qed.

Lemma wf_update_K fexp C reg alpha beta :
  wf_tensor C -> length alpha = shape0 C -> length beta = shape1 C ->
  wf_tensor (update_K fexp C reg alpha beta).
Proof.
  intros [Hr Hc] Ha Hb. unfold wf_tensor, update_K. cbn [shape0 shape1 rows].
  apply wf_rows_zipWith; try assumption.
  intros ai crow Hin. rewrite length_zipWith.
  rewrite Forall_forall in Hc. rewrite (Hc crow Hin). lia.
Qed.

Lemma wf_update_P fexp flog C reg alpha beta u v ab :
  wf_tensor C ->
  length alpha = shape0 C -> length beta = shape1 C ->
  length u = shape0 C -> length v = shape1 C ->
  wf_tensor (update_P fexp flog C reg alpha beta u v ab).
Proof.
  intros [Hr Hc] Ha Hb Hu Hv. unfold wf_tensor, update_P. cbn [shape0 shape1 rows].
  apply wf_rows_zipWith; try assumption.
  - unfold vlog_eps. rewrite length_combine, length_map. lia.
  - intros ail crow Hin. unfold vlog_eps.
    rewrite length_zipWith, length_combine, length_map.
    rewrite Forall_forall in Hc. rewrite (Hc crow Hin). lia.
Qed.

Lemma stab_init_shaped fexp C reg warm_start :
  wf_tensor C -> warm_shaped C warm_start -> stab_shaped C (stab_init fexp C reg warm_start).
Proof.
  intros HC Hw. unfold stab_shaped, stab_init, warm_shaped in *.
  destruct warm_start as [[al be]|]; cbn [ss_u ss_v ss_alpha ss_beta ss_K];
    unfold uniform, zeros; rewrite ?repeat_length.
  - destruct Hw as [Hal Hbe]. repeat split; try assumption; try reflexivity;
      apply wf_update_K; assumption.
  - repeat split; try reflexivity;
      apply wf_update_K; try assumption; apply repeat_length.
Qed.

Lemma stab_body_shaped fexp flog a b C reg tau verbose log eval_freq print_freq st st' :
  wf_tensor C -> length a = shape0 C -> length b = shape1 C ->
  stab_body fexp flog a b C reg tau verbose log eval_freq print_freq st = Ok st' ->
  stab_shaped C st -> stab_shaped C st'.
Proof.
  intros HC Ha Hb H (Hu & Hv & Hal & Hbe & HK & H0 & H1).
  unfold stab_body, absorb, bind in H.
  assert (length a = shape0 (ss_K st)) as Ha' by congruence.
  assert (length b = shape1 (ss_K st)) as Hb' by congruence.
  pose proof (length_knopp_update a b (ss_K st) (ss_u st) HK Ha' Hb') as [Lu Lv].
  destruct (knopp_update a b (ss_K st) (ss_u st)) as [u v]. cbn [fst snd] in Lu, Lv.
  rewrite H0 in Lu. rewrite H1 in Lv.
  destruct (fgt (abs_sum u) tau || fgt (abs_sum v) tau);
    destruct (flag_and_multiple log (ss_it st) eval_freq); try discriminate;
    destruct (flag_and_multiple verbose (ss_it st) print_freq); try discriminate;
    inversion H; subst st'; unfold stab_shaped;
    cbn [ss_u ss_v ss_alpha ss_beta ss_K].
  - assert (length (vadd (ss_alpha st) (vscale reg (vlog_eps flog u))) = shape0 C) as La.
    { unfold vadd, vscale, vlog_eps. rewrite length_zipWith, !length_map. lia. }
    assert (length (vadd (ss_beta st) (vscale reg (vlog_eps flog v))) = shape1 C) as Lb.
    { unfold vadd, vscale, vlog_eps. rewrite length_zipWith, !length_map. lia. }
    pose proof (wf_update_K fexp C reg _ _ HC La Lb) as HK'.
    unfold vfill. rewrite !length_map.
    split; [exact Lu|]. split; [exact Lv|]. split; [exact La|]. split; [exact Lb|].
    split; [exact HK'|]. split; reflexivity.
  - split; [exact Lu|]. split; [exact Lv|]. repeat split; try assumption; apply HK.
Qed.

Lemma stab_loop_shaped fexp flog a b C reg maxIter tau stopThr verbose log eval_freq
    print_freq fuel :
  wf_tensor C -> length a = shape0 C -> length b = shape1 C ->
  forall st st',
    stab_loop fexp flog a b C reg maxIter tau stopThr verbose log eval_freq print_freq
      fuel st = Ok st' ->
    stab_shaped C st -> stab_shaped C st'.
Proof.
  intros HC Ha Hb. induction fuel as [|fuel IH]; cbn [stab_loop]; intros st st' H Hs.
  - inversion H; subst. exact Hs.
  - destruct (fgt (ss_err st) stopThr && (ss_it st <=? maxIter)).
    + unfold bind in H.
      destruct (stab_body _ _ _ _ _ _ _ _ _ _ _ st) as [st1|] eqn:B; [|discriminate].
      apply (IH st1); [exact H|]. eapply stab_body_shaped; eauto.
    + inversion H; subst. exact Hs.
Qed.

Lemma stabilized_shapes fexp flog a b C reg maxIter tau stopThr verbose log warm_start
    eval_freq print_freq P lg :
  wf_tensor C -> warm_shaped C warm_start ->
  sinkhorn_stabilized fexp flog a b C reg maxIter tau stopThr verbose log warm_start
    eval_freq print_freq = Ok (P, lg) ->
  wf_tensor P /\ shape0 P = shape0 C /\ shape1 P = shape1 C /\
  match lg with
  | Some l => length (log_u l) = shape0 C /\ length (log_v l) = shape1 C /\
              length (log_alpha l) = shape0 C /\ length (log_beta l) = shape1 C
  | None => True
  end.
Proof.
  intros HC Hw H. unfold sinkhorn_stabilized, bind in H.
  destruct (check_inputs a b C reg) as [[]|] eqn:Ec; [|discriminate].
  apply check_inputs_lengths in Ec. destruct Ec as [Ha Hb].
  destruct (stab_loop _ _ _ _ _ _ _ _ _ _ _ _ _ _ _) as [st|] eqn:L; [|discriminate].
  apply stab_loop_shaped in L; try assumption; [|now apply stab_init_shaped].
  destruct L as (Hu & Hv & Hal & Hbe & _).
  pose proof (wf_update_P fexp flog C reg _ _ _ _ false HC Hal Hbe Hu Hv) as HP.
  destruct log; inversion H; subst; (split; [exact HP|]);
    cbn [shape0 shape1 update_P log_u log_v log_alpha log_beta];
    repeat split; try assumption;
    unfold vadd, vscale, vlog_eps; rewrite length_zipWith, !length_map; lia.
Qed.

Lemma eps_reach_shaped fexp flog a b C reg maxIter maxInnerIter tau scaling_base
    scaling_coef stopThr verbose log eval_freq print_freq st :
  wf_tensor C ->
  eps_reach fexp flog a b C reg maxIter maxInnerIter tau scaling_base scaling_coef
    stopThr verbose log eval_freq print_freq st ->
  warm_shaped C (es_warm st) /\
  match es_last st with
  | Some (P, _) => wf_tensor P /\ shape0 P = shape0 C /\ shape1 P = shape1 C
  | None => True
  end.
Proof.
  intros HC. induction 1 as [ws|st st' Hr [IHw IHl] G B].
  - cbn. split; exact I.
  - apply eps_body_ok in B. destruct B as (P & lg & Hs & _ & _ & _ & Hlast & Hw & _).
    apply stabilized_shapes in Hs; try assumption.
    destruct Hs as (HP & H0 & H1 & _ & _ & Hla & Hlb).
    rewrite Hlast, Hw. split; [split; assumption|].
    split; [exact HP|]. split; assumption.
Qed.

(** X14: the plan has the shape of the cost matrix.  For a well-formed [C]
    (and a warm start, if any, of lengths [na] and [nb]), the plan a solver
    returns has [na] rows of [nb] entries, and the vectors of a returned log
    have lengths [na] and [nb]. *)
Theorem returned_plan_has_shape_of_cost :
  forall fexp flog a b C reg maxIter stopThr verbose log warm_start eval_freq print_freq,
    wf_tensor C ->
    (forall P lg,
        warm_shaped C warm_start ->
        sinkhorn_knopp fexp flog a b C reg maxIter stopThr verbose log warm_start
          eval_freq print_freq = Ok (P, lg) ->
        wf_tensor P /\ shape0 P = shape0 C /\ shape1 P = shape1 C /\
        match lg with
        | Some l => length (log_u l) = shape0 C /\ length (log_v l) = shape1 C /\
                    length (log_alpha l) = shape0 C /\ length (log_beta l) = shape1 C
        | None => True
        end) /\
    (forall tau P lg,
        warm_shaped C warm_start ->
        sinkhorn_stabilized fexp flog a b C reg maxIter tau stopThr verbose log warm_start
          eval_freq print_freq = Ok (P, lg) ->
        wf_tensor P /\ shape0 P = shape0 C /\ shape1 P = shape1 C /\
        match lg with
        | Some l => length (log_u l) = shape0 C /\ length (log_v l) = shape1 C /\
                    length (log_alpha l) = shape0 C /\ length (log_beta l) = shape1 C
        | None => True
        end) /\
    (forall maxInnerIter tau scaling_base scaling_coef P lg,
        sinkhorn_epsilon_scaling fexp flog a b C reg maxIter maxInnerIter tau scaling_base
          scaling_coef stopThr verbose log warm_start eval_freq print_freq = Ok (P, lg) ->
        wf_tensor P /\ shape0 P = shape0 C /\ shape1 P = shape1 C).
Proof.
  intros fexp flog a b C reg maxIter stopThr verbose log ws ef pf HC.
  split; [|split].
  - intros P lg Hw H. eapply knopp_shapes; eauto.
  - intros tau P lg Hw H. eapply stabilized_shapes; eauto.
  - intros maxInnerIter tau scaling_base scaling_coef P lg H.
    unfold sinkhorn_epsilon_scaling, bind in H.
    destruct (check_inputs a b C reg); [|discriminate].
    destruct (eps_loop _ _ _ _ _ _ _ _ _ _ _ _ _ _ _ _ _ _) as [st|e] eqn:L; [|discriminate].
    pose proof (eps_loop_reach _ _ _ _ _ _ _ _ _ _ _ _ _ _ _ _ _ _ st
                  (eps_reach_init _ _ _ _ _ _ _ _ _ _ _ _ _ _ _ _ ws) L) as R.
    apply eps_reach_shaped in R; [|exact HC]. destruct R as [_ R].
    destruct (es_last st) as [[P0 ilog]|]; [|discriminate].
    destruct log; inversion H; subst; exact R.
Qed.

Lemma returned_plan_has_shape_of_cost_witness :
  exists P lg,
    sinkhorn_epsilon_scaling Reference.exp_ref Reference.log_ref
      Scenario.a Scenario.b Scenario.C Scenario.reg 5 100 1e3%float 0.75%float None
      1e-9%float false true None 10 200 = Ok (P, lg) /\
    wf_tensor P /\ shape0 P = 2%nat /\ shape1 P = 2%nat.
Proof.
  destruct (sinkhorn_epsilon_scaling Reference.exp_ref Reference.log_ref
      Scenario.a Scenario.b Scenario.C Scenario.reg 5 100 1e3%float 0.75%float None
      1e-9%float false true None 10 200) as [[P lg]|e] eqn:E;
    [|vm_compute in E; discriminate].
  exists P, lg. split; [reflexivity|].
  assert (wf_tensor Scenario.C) as HC by (split; [reflexivity|repeat constructor]).
  exact (proj2 (proj2 (returned_plan_has_shape_of_cost Reference.exp_ref
                         Reference.log_ref Scenario.a Scenario.b Scenario.C Scenario.reg
                         5 1e-9%float false true None 10 200 HC))
           100 1e3%float 0.75%float None P lg E).
Defined.

(** ** The dispatcher *)

Lemma solver_precondition_failure
    (solver : option (vec * vec) -> result (tensor2 * option log_t)) ws :
  precondition_failure (solver ws) ->
  exists msg, of_solver (solver ws) = Failed (Raised (AssertionError msg)).
Proof. intros [msg ->]. exists msg. reflexivity. Qed.

Lemma with_warm_start_violates a b C reg warm_start k1 k2 get1 get2 solver :
  violates a b C reg ->
  (forall ws, precondition_failure (solver ws)) ->
  exists msg,
    with_warm_start a b C reg warm_start k1 k2 get1 get2 solver
    = Failed (Raised (AssertionError msg)).
Proof.
  intros Hv Hs. unfold with_warm_start. destruct warm_start as [d|].
  - destruct (check_inputs_violates a b C reg Hv) as [msg ->]. eauto.
  - apply solver_precondition_failure. apply Hs.
Qed.

Lemma precondition_violation_fails_aux fexp flog a b C reg :
  violates a b C reg ->
  (forall maxIter stopThr verbose log warm_start eval_freq print_freq,
      precondition_failure
        (sinkhorn_knopp fexp flog a b C reg maxIter stopThr verbose log warm_start
           eval_freq print_freq)) /\
  (forall maxIter tau stopThr verbose log warm_start eval_freq print_freq,
      precondition_failure
        (sinkhorn_stabilized fexp flog a b C reg maxIter tau stopThr verbose log
           warm_start eval_freq print_freq)) /\
  (forall maxIter maxInnerIter tau scaling_base scaling_coef stopThr verbose log
          warm_start eval_freq print_freq,
      precondition_failure
        (sinkhorn_epsilon_scaling fexp flog a b C reg maxIter maxInnerIter tau
           scaling_base scaling_coef stopThr verbose log warm_start eval_freq
           print_freq)).
Proof.
  intros H. pose proof (check_inputs_violates a b C reg H) as Hc.
  repeat split; intros;
    [unfold sinkhorn_knopp | unfold sinkhorn_stabilized | unfold sinkhorn_epsilon_scaling];
    apply bind_precondition_failure; exact Hc.
Qed.

(** X15: the order in which [sinkhorn] reports errors.  A method whose
    lower-cased name is none of the three solver names raises [ValueError],
    whatever the other arguments are; for a known method an input that
    violates a precondition fails an assertion, even when the warm-start
    dictionary lacks the keys the solver reads; and with valid inputs
    [sinkhorn_knopp] reached with a dictionary without ['u'] raises
    [KeyError]. *)
Theorem sinkhorn_error_precedence :
  forall fexp flog lower a b C reg method maxIter tau stopThr verbose log warm_start
         eval_freq print_freq,
    let call :=
      sinkhorn fexp flog lower a b C reg method maxIter tau stopThr verbose log
        warm_start eval_freq print_freq in
    let known :=
      lower method = "sinkhorn"%string \/
      lower method = "sinkhorn_stabilized"%string \/
      lower method = "sinkhorn_epsilon_scaling"%string in
    (~ known -> call = Failed (ValueError ("Unknown method '" ++ method ++ "'."))) /\
    (known -> violates a b C reg ->
     exists msg, call = Failed (Raised (AssertionError msg))) /\
    (lower method = "sinkhorn"%string -> check_inputs a b C reg = Ok tt ->
     forall d, warm_start = Some d -> wd_u d = None ->
               call = Failed (KeyError "u")).
Proof.
  intros fexp flog lower a b C reg method maxIter tau stopThr verbose log warm_start
         eval_freq print_freq call known.
  subst call known. unfold sinkhorn. split; [|split].
  - intros Hk.
    destruct (String.eqb_spec (lower method) "sinkhorn"); [tauto|].
    destruct (String.eqb_spec (lower method) "sinkhorn_stabilized"); [tauto|].
    destruct (String.eqb_spec (lower method) "sinkhorn_epsilon_scaling"); [tauto|].
    reflexivity.
  - intros Hk Hv.
    pose proof (precondition_violation_fails_aux fexp flog a b C reg Hv) as (H1 & H2 & H3).
    destruct Hk as [Hk|[Hk|Hk]]; rewrite Hk; cbn [String.eqb Ascii.eqb Bool.eqb].
    + apply with_warm_start_violates; [exact Hv|]. intros ws. apply H1.
    + apply with_warm_start_violates; [exact Hv|]. intros ws. apply H2.
    + destruct (H3 maxIter 100 tau 0.75%float None stopThr false log
                  (scaling_warm_start warm_start) eval_freq print_freq) as [msg ->].
      exists msg. reflexivity.
  - intros Hk Hc d -> Hu. rewrite Hk. cbn [String.eqb Ascii.eqb Bool.eqb].
    unfold with_warm_start. rewrite Hc, Hu. reflexivity.
Qed.

(** An unknown method is reported before the empty inputs are looked at. *)
Lemma sinkhorn_error_precedence_witness :
  sinkhorn Reference.exp_ref Reference.log_ref ascii_lower [] [] (mkT2 0 0 []) 0%float
    "Greenkhorn" 1000 1e3%float 1e-9%float false true None 10 200
  = Failed (ValueError "Unknown method 'Greenkhorn'.").
Proof.
  apply (sinkhorn_error_precedence Reference.exp_ref Reference.log_ref ascii_lower
           [] [] (mkT2 0 0 []) 0%float "Greenkhorn" 1000 1e3%float 1e-9%float false true
           None 10 200).
  intros [H|[H|H]]; vm_compute in H; discriminate.
Defined.

(** X16: on its epsilon-scaling route the dispatcher passes [verbose=False]
    and the solver discards the warm start, so a call of [sinkhorn] with a
    method that lower-cases to ['sinkhorn_epsilon_scaling'] returns the same
    result whatever [verbose], [print_freq] and [warm_start] are. *)
Theorem sinkhorn_scaling_route_ignores :
  forall fexp flog lower a b C reg method maxIter tau stopThr log eval_freq
         verbose verbose' print_freq print_freq' warm_start warm_start',
    lower method = "sinkhorn_epsilon_scaling"%string ->
    sinkhorn fexp flog lower a b C reg method maxIter tau stopThr verbose log
      warm_start eval_freq print_freq =
    sinkhorn fexp flog lower a b C reg method maxIter tau stopThr verbose' log
      warm_start' eval_freq print_freq'.
Proof.
  intros fexp flog lower a b C reg method maxIter tau stopThr log eval_freq
         verbose verbose' pf pf' ws ws' Hm.
  unfold sinkhorn. rewrite Hm. cbn [String.eqb Ascii.eqb Bool.eqb]. apply f_equal.
  unfold sinkhorn_epsilon_scaling.
  rewrite (eps_loop_verbose fexp flog a b C reg maxIter 100 tau 0.75%float
             (default_scaling_coef C reg None) stopThr log eval_freq
             false false pf pf' (Z.to_nat maxIter))
    by discriminate.
  reflexivity.
Qed.

Lemma sinkhorn_scaling_route_ignores_witness :
  sinkhorn Reference.exp_ref Reference.log_ref ascii_lower Scenario.a Scenario.b
    Scenario.C Scenario.reg "Sinkhorn_Epsilon_Scaling" 5 1e3%float 1e-9%float true true
    (Some (mkWarm None None None None)) 10 0 =
  sinkhorn Reference.exp_ref Reference.log_ref ascii_lower Scenario.a Scenario.b
    Scenario.C Scenario.reg "Sinkhorn_Epsilon_Scaling" 5 1e3%float 1e-9%float false true
    None 10 200.
Proof.
  apply sinkhorn_scaling_route_ignores. reflexivity.
Defined.

(** * The stabilized solver on tensor objects *)

Lemma length_put h : forall t x, length (put h t x) = length h.
Proof.
  induction h as [|y h IH]; intros [|t] x; cbn; try reflexivity.
  now rewrite IH.
Qed.

Lemma load_put_same h : forall t x, (t < length h)%nat -> load (put h t x) t = x.
Proof.
  unfold load. induction h as [|y h IH]; intros [|t] x Ht; cbn in *; try lia.
  - reflexivity.
  - apply IH. lia.
Qed.

Lemma load_put_other h : forall t t' x, t <> t' -> load (put h t x) t' = load h t'.
Proof.
  unfold load. induction h as [|y h IH]; intros [|t] [|t'] x Ht; cbn;
    try reflexivity; try congruence.
  apply IH. congruence.
Qed.

Lemma length_iadd h t x : length (iadd h t x) = length h.
Proof. apply length_put. Qed.

Lemma load_iadd_same h t x :
  (t < length h)%nat -> load (iadd h t x) t = vadd (load h t) x.
Proof. apply load_put_same. Qed.

Lemma load_iadd_other h t t' x : t <> t' -> load (iadd h t x) t' = load h t'.
Proof. apply load_put_other. Qed.

Section OnePass.

Variables (fexp flog : float -> float).
Variables (a b : tref) (C : tensor2) (reg tau : float).
Variables (alpha beta : tref).

(** What an absorption leaves in the store. *)
Lemma absorb_inplace_store h K u v :
  (alpha < length h)%nat -> (beta < length h)%nat ->
  let h' := fst (fst (fst (fst (absorb_inplace fexp flog C reg tau alpha beta h K u v)))) in
  length h' = length h /\
  (forall t, t <> alpha -> t <> beta -> load h' t = load h t).
Proof.
  intros Ha Hb. unfold absorb_inplace.
  destruct (fgt (abs_sum u) tau || fgt (abs_sum v) tau); cbn [fst].
  - split; [now rewrite !length_iadd|].
    intros t Hta Htb. rewrite !load_iadd_other by congruence. reflexivity.
  - split; reflexivity.
Qed.

(** On two objects of their own, the in-place update is the update of the
    values. *)
Lemma absorb_inplace_separate h K u v :
  (alpha < length h)%nat -> (beta < length h)%nat -> alpha <> beta ->
  let '(h', u', v', K', ab) := absorb_inplace fexp flog C reg tau alpha beta h K u v in
  (load h' alpha, load h' beta, u', v', K', ab)
  = absorb fexp flog C reg tau (load h alpha) (load h beta) K u v.
Proof.
  intros Ha Hb Hab. unfold absorb_inplace, absorb.
  destruct (fgt (abs_sum u) tau || fgt (abs_sum v) tau); [|reflexivity].
  rewrite load_iadd_same by (rewrite length_iadd; exact Hb).
  rewrite (load_iadd_other _ alpha beta) by exact Hab.
  rewrite (load_iadd_other _ beta alpha) by congruence.
  rewrite load_iadd_same by exact Ha.
  reflexivity.
Qed.

End OnePass.

Section Simulation.

Variables (fexp flog : float -> float).
Variables (a b : tref) (C : tensor2) (reg : float).
Variables (maxIter : Z) (tau stopThr : float) (verbose log : bool)
          (eval_freq print_freq : Z).
Variables (alpha beta : tref).
Variables (a0 b0 : vec).

Hypothesis alpha_beta : alpha <> beta.
Hypothesis alpha_a : alpha <> a.
Hypothesis alpha_b : alpha <> b.
Hypothesis beta_a : beta <> a.
Hypothesis beta_b : beta <> b.

Lemma stab_body_separate hs ss :
  (alpha < length (hs_store hs))%nat -> (beta < length (hs_store hs))%nat ->
  same_tensors a b alpha beta a0 b0 hs ss ->
  runs_agree a b alpha beta a0 b0 (hs_store hs)
    (stab_body_inplace fexp flog a b C reg tau verbose log eval_freq print_freq
       alpha beta hs)
    (stab_body fexp flog a0 b0 C reg tau verbose log eval_freq print_freq ss).
Proof.
  intros Ha Hb (Sa & Sb & Sal & Sbe & Su & Sv & SK & Serr & Sit & Serrs).
  unfold stab_body_inplace, stab_body.
  rewrite Sa, Sb, <- SK, <- Su, <- Sit, <- Serr, <- Serrs, <- Sal, <- Sbe.
  destruct (knopp_update a0 b0 (hs_K hs) (hs_u hs)) as [u v].
  pose proof (absorb_inplace_separate fexp flog C reg tau alpha beta
                (hs_store hs) (hs_K hs) u v Ha Hb alpha_beta) as E.
  pose proof (absorb_inplace_store fexp flog C reg tau alpha beta
                (hs_store hs) (hs_K hs) u v Ha Hb) as [Hl Hf].
  destruct (absorb_inplace fexp flog C reg tau alpha beta (hs_store hs) (hs_K hs) u v)
    as [[[[h' u'] v'] K'] ab].
  cbn [fst] in Hl, Hf. rewrite <- E.
  assert (load h' b = b0) as Eb by (rewrite Hf by congruence; exact Sb).
  assert (load h' a = a0) as Ea by (rewrite Hf by congruence; exact Sa).
  rewrite Eb. unfold bind, runs_agree.
  destruct (flag_and_multiple log (hs_it hs) eval_freq) as [do_eval|e]; [|reflexivity].
  destruct (flag_and_multiple verbose (hs_it hs) print_freq) as [?|e]; [|reflexivity].
  cbn. unfold same_tensors. cbn.
  repeat split; try assumption; try reflexivity.
Qed.

Lemma stab_loop_separate fuel : forall hs ss,
  (alpha < length (hs_store hs))%nat -> (beta < length (hs_store hs))%nat ->
  same_tensors a b alpha beta a0 b0 hs ss ->
  runs_agree a b alpha beta a0 b0 (hs_store hs)
    (stab_loop_inplace fexp flog a b C reg maxIter tau stopThr verbose log eval_freq
       print_freq alpha beta fuel hs)
    (stab_loop fexp flog a0 b0 C reg maxIter tau stopThr verbose log eval_freq
       print_freq fuel ss).
Proof.
  induction fuel as [|fuel IH]; intros hs ss Ha Hb S; cbn [stab_loop_inplace stab_loop].
  - cbn. auto.
  - pose proof S as (_ & _ & _ & _ & _ & _ & _ & Serr & Sit & _).
    rewrite <- Serr, <- Sit.
    destruct (fgt (hs_err hs) stopThr && (hs_it hs <=? maxIter)); [|cbn; auto].
    pose proof (stab_body_separate hs ss Ha Hb S) as B.
    unfold bind.
    destruct (stab_body_inplace _ _ _ _ _ _ _ _ _ _ _ _ _ hs) as [hs1|e];
      destruct (stab_body _ _ _ _ _ _ _ _ _ _ _ ss) as [ss1|e']; cbn in B;
      try contradiction; [|exact B].
    destruct B as (S1 & L1 & F1).
    pose proof (IH hs1 ss1) as R. rewrite L1 in R. specialize (R Ha Hb S1).
    unfold runs_agree in *.
    destruct (stab_loop_inplace _ _ _ _ _ _ _ _ _ _ _ _ _ _ _ _ hs1) as [hs2|e];
      destruct (stab_loop _ _ _ _ _ _ _ _ _ _ _ _ _ _ ss1) as [ss2|e'];
      try contradiction; [|exact R].
    destruct R as (S2 & L2 & F2).
    split; [exact S2|]. split; [congruence|].
    intros t Hta Htb. rewrite F2, F1 by assumption. reflexivity.
Qed.

End Simulation.

Lemma load_app_old (h extra : store) t : (t < length h)%nat -> load (h ++ extra) t = load h t.
Proof. intros Ht. unfold load. now apply app_nth1. Qed.

Lemma load_app_new (h : store) x y :
  load (h ++ [x; y]) (length h) = x /\ load (h ++ [x; y]) (S (length h)) = y.
Proof.
  unfold load. split.
  - rewrite app_nth2 by lia. now rewrite Nat.sub_diag.
  - rewrite app_nth2 by lia. replace (S (length h) - length h)%nat with 1%nat by lia.
    reflexivity.
Qed.

(** X18: called with warm-start tensors that are two objects of their own,
    neither of them [a] or [b], or with no warm start, [sinkhorn_stabilized]
    returns (or raises) exactly what it computes from the contents of the
    tensors; and of the caller's tensors it writes to the two warm-start
    tensors only: [a], [b] and every other tensor are left as they were. *)
Theorem stabilized_on_separate_tensors :
  forall fexp flog h a b C reg maxIter tau stopThr verbose log warm_start
         eval_freq print_freq,
    separate h a b warm_start ->
    forget (sinkhorn_stabilized_inplace fexp flog h a b C reg maxIter tau stopThr
              verbose log warm_start eval_freq print_freq)
    = sinkhorn_stabilized fexp flog (load h a) (load h b) C reg maxIter tau stopThr
        verbose log (warm_values h warm_start) eval_freq print_freq /\
    forall P lg h',
      sinkhorn_stabilized_inplace fexp flog h a b C reg maxIter tau stopThr
        verbose log warm_start eval_freq print_freq = Ok (P, lg, h') ->
      forall t, (t < length h)%nat ->
        match warm_start with
        | Some (alpha, beta) => t <> alpha /\ t <> beta
        | None => True
        end ->
        load h' t = load h t.
Proof.
  intros fexp flog h a b C reg maxIter tau stopThr verbose log warm_start
         eval_freq print_freq (Ha & Hb & Hw).
  unfold sinkhorn_stabilized_inplace, sinkhorn_stabilized.
  destruct (check_inputs (load h a) (load h b) C reg) as [[]|e]; cbn [bind];
    [|split; [reflexivity|discriminate]].
  set (h0 := snd (bind_potentials C h warm_start)).
  set (alpha := fst (fst (bind_potentials C h warm_start))).
  set (beta := snd (fst (bind_potentials C h warm_start))).
  assert ((alpha < length h0)%nat /\ (beta < length h0)%nat /\
          alpha <> beta /\ alpha <> a /\ alpha <> b /\ beta <> a /\ beta <> b /\
          load h0 a = load h a /\ load h0 b = load h b /\
          (forall t, (t < length h)%nat -> load h0 t = load h t) /\
          (forall t, (t < length h)%nat ->
             match warm_start with
             | Some (al, be) => t <> al /\ t <> be
             | None => True
             end -> t <> alpha /\ t <> beta) /\
          stab_init fexp C reg (warm_values h warm_start)
          = mkS (uniform (shape0 C)) (uniform (shape1 C)) (load h0 alpha) (load h0 beta)
              (update_K fexp C reg (load h0 alpha) (load h0 beta)) 1 1 []) as Hi.
  { subst h0 alpha beta. destruct warm_start as [[al be]|]; cbn [bind_potentials fst snd].
    - destruct Hw as (H1 & H2 & H3 & H4 & H5 & H6 & H7).
      repeat split; try assumption; try reflexivity; tauto.
    - rewrite length_app. cbn [length].
      destruct (load_app_new h (zeros (shape0 C)) (zeros (shape1 C))) as [E1 E2].
      rewrite E1, E2, !load_app_old by assumption.
      repeat split; try lia; try reflexivity.
      intros t Ht. now apply load_app_old. }
  destruct Hi as (Hal & Hbe & N1 & N2 & N3 & N4 & N5 & Ea & Eb & Eold & Hne & Einit).
  destruct (bind_potentials C h warm_start) as [[al be] h1].
  cbn [fst snd] in h0, alpha, beta. subst h0 alpha beta.
  rewrite Einit.
  pose proof (stab_loop_separate fexp flog a b C reg maxIter tau stopThr verbose log
                eval_freq print_freq al be (load h a) (load h b) N1 N2 N3 N4 N5
                (Z.to_nat maxIter)
                (mkH h1 (uniform (shape0 C)) (uniform (shape1 C))
                     (update_K fexp C reg (load h1 al) (load h1 be)) 1 1 [])
                (mkS (uniform (shape0 C)) (uniform (shape1 C)) (load h1 al) (load h1 be)
                     (update_K fexp C reg (load h1 al) (load h1 be)) 1 1 [])
                Hal Hbe) as R.
  cbn [hs_store] in R.
  assert (same_tensors a b al be (load h a) (load h b)
            (mkH h1 (uniform (shape0 C)) (uniform (shape1 C))
                     (update_K fexp C reg (load h1 al) (load h1 be)) 1 1 [])
            (mkS (uniform (shape0 C)) (uniform (shape1 C)) (load h1 al) (load h1 be)
                     (update_K fexp C reg (load h1 al) (load h1 be)) 1 1 [])) as S0.
  { unfold same_tensors. cbn. repeat split; assumption || reflexivity. }
  specialize (R S0). unfold runs_agree in R.
  destruct (stab_loop_inplace _ _ _ _ _ _ _ _ _ _ _ _ _ _ _ _ _) as [hs|e];
    destruct (stab_loop _ _ _ _ _ _ _ _ _ _ _ _ _ _ _) as [ss|e'];
    try contradiction; cbn [bind].
  - destruct R as ((_ & _ & Sal & Sbe & Su & Sv & _ & _ & _ & Serrs) & L & F).
    rewrite Sal, Sbe, Su, Sv, Serrs. split.
    + destruct log; reflexivity.
    + intros P lg h' H t Ht Hn.
      assert (h' = hs_store hs) as -> by (destruct log; inversion H; reflexivity).
      destruct (Hne t Ht Hn) as [T1 T2].
      rewrite F by assumption. now apply Eold.
  - subst e'. split; [reflexivity|discriminate].
Qed.

(** X17: one pass of the stabilized loop, on tensor objects.  With [(u, v)]
    the freshly updated scaling vectors: if the L1 norm of [u] or of [v]
    exceeds [tau], then, [alpha] and [beta] being two tensors, [alpha_i]
    grows by [reg * log(u_i + eps)] and [beta_j] by [reg * log(v_j + eps)],
    whereas one tensor bound to both names grows by both increments; every
    entry of [u] becomes 1/na and every entry of [v] 1/nb, and [K] is
    rebuilt from what the two names then hold as
    [exp((alpha_i + beta_j - C_ij) / reg)].  Otherwise the store and [K] are
    what they were and [(u, v)] is kept.  No other tensor of the store is
    written in either case. *)
Theorem absorption_on_tensor_objects :
  forall fexp flog a b C reg tau verbose log eval_freq print_freq alpha beta st st',
    (alpha < length (hs_store st))%nat -> (beta < length (hs_store st))%nat ->
    stab_body_inplace fexp flog a b C reg tau verbose log eval_freq print_freq
      alpha beta st = Ok st' ->
    let h := hs_store st in
    let h' := hs_store st' in
    let u := fst (knopp_update (load h a) (load h b) (hs_K st) (hs_u st)) in
    let v := snd (knopp_update (load h a) (load h b) (hs_K st) (hs_u st)) in
    let grow (x : vec) (w : vec) :=
      zipWith (fun xi wi => (xi + reg * flog (wi + M_EPS))%float) x w in
    (forall t, t <> alpha -> t <> beta -> load h' t = load h t) /\
    if fgt (tsum (map abs u)) tau || fgt (tsum (map abs v)) tau then
      (alpha <> beta ->
         load h' alpha = grow (load h alpha) u /\ load h' beta = grow (load h beta) v) /\
      (alpha = beta -> load h' alpha = grow (grow (load h alpha) u) v) /\
      hs_u st' = repeat (1 / of_nat (shape0 C))%float (length u) /\
      hs_v st' = repeat (1 / of_nat (shape1 C))%float (length v) /\
      hs_K st' = spec_kernel fexp C reg (load h' alpha) (load h' beta)
    else
      h' = h /\ hs_K st' = hs_K st /\ hs_u st' = u /\ hs_v st' = v.
Proof.
  intros fexp flog a b C reg tau verbose log eval_freq print_freq alpha beta st st'
         Ha Hb H h h' u v grow.
  unfold stab_body_inplace in H. fold h in H.
  destruct (knopp_update (load h a) (load h b) (hs_K st) (hs_u st)) as [u0 v0] eqn:Eu.
  cbn [fst snd] in u, v. subst u v.
  pose proof (absorb_inplace_store fexp flog C reg tau alpha beta h (hs_K st) u0 v0
                Ha Hb) as [_ Hf].
  unfold absorb_inplace, abs_sum in H, Hf.
  destruct (fgt (tsum (map abs u0)) tau || fgt (tsum (map abs v0)) tau) eqn:Ec;
    unfold bind in H;
    destruct (flag_and_multiple log (hs_it st) eval_freq); try discriminate;
    destruct (flag_and_multiple verbose (hs_it st) print_freq); try discriminate;
    inversion H; subst st' h'; cbn [hs_store hs_u hs_v hs_K fst] in *;
    (split; [exact Hf|]).
  - assert (forall y w, vadd y (vscale reg (vlog_eps flog w)) = grow y w) as G.
    { intros y w. unfold grow, vadd, vscale, vlog_eps.
      now rewrite map_map, zipWith_map_r. }
    split; [|split; [|split; [|split]]].
    + intros Hab. split.
      * rewrite load_iadd_other by congruence.
        rewrite load_iadd_same by exact Ha. apply G.
      * rewrite load_iadd_same by (rewrite length_iadd; exact Hb).
        rewrite load_iadd_other by exact Hab. apply G.
    + intros <-.
      rewrite load_iadd_same by (rewrite length_iadd; exact Ha).
      rewrite load_iadd_same by exact Ha. now rewrite !G.
    + unfold vfill. apply map_const_repeat.
    + unfold vfill. apply map_const_repeat.
    + apply update_K_spec.
  - repeat split; reflexivity.
Qed.

(** A kernel that underflows ([exp(-1000) = 0]) blows [u] and [v] up to 1e16
    in the first pass; both are absorbed, into two tensors of zeros. *)
Lemma absorption_on_tensor_objects_witness :
  let C := mkT2 1 1 [[1000%float]] in
  let st := mkH [[1%float]; [1%float]; [0%float]; [0%float]] [1%float] [1%float]
                (update_K Reference.exp_ref C 1%float [0%float] [0%float]) 1 1 [] in
  exists st',
    stab_body_inplace Reference.exp_ref Reference.log_ref 0%nat 1%nat C 1%float 1e3%float
      false true 10 200 2%nat 3%nat st = Ok st' /\
    load (hs_store st') 0%nat = [1%float] /\ load (hs_store st') 1%nat = [1%float] /\
    hs_u st' = [1%float] /\ hs_v st' = [1%float] /\
    hs_K st' = spec_kernel Reference.exp_ref C 1%float
                 (load (hs_store st') 2%nat) (load (hs_store st') 3%nat).
Proof.
  intros C st.
  destruct (stab_body_inplace Reference.exp_ref Reference.log_ref 0%nat 1%nat C 1%float
              1e3%float false true 10 200 2%nat 3%nat st) as [st'|e] eqn:E;
    [|vm_compute in E; discriminate].
  exists st'. split; [reflexivity|].
  assert (2 < length (hs_store st))%nat as H2 by (cbn; lia).
  assert (3 < length (hs_store st))%nat as H3 by (cbn; lia).
  pose proof (absorption_on_tensor_objects _ _ _ _ _ _ _ _ _ _ _ _ _ _ _ H2 H3 E) as H.
  cbv zeta in H. destruct H as [Hf H].
  replace (fgt (tsum (map abs (fst (knopp_update (load (hs_store st) 0%nat)
                                      (load (hs_store st) 1%nat) (hs_K st) (hs_u st)))))
             1e3%float
           || fgt (tsum (map abs (snd (knopp_update (load (hs_store st) 0%nat)
                                         (load (hs_store st) 1%nat) (hs_K st) (hs_u st)))))
                1e3%float) with true in H by (vm_compute; reflexivity).
  destruct H as (_ & _ & Hu & Hv & HK).
  split; [apply Hf; discriminate|]. split; [apply Hf; discriminate|].
  split; [exact Hu|]. split; [exact Hv|exact HK].
Defined.

(** The same input, as a whole call of one iteration. *)
Lemma stabilized_on_separate_tensors_witness :
  let C := mkT2 1 1 [[1000%float]] in
  let h := [[1%float]; [1%float]; [0%float]; [0%float]] in
  separate h 0%nat 1%nat (Some (2%nat, 3%nat)) /\
  forget (sinkhorn_stabilized_inplace Reference.exp_ref Reference.log_ref h 0%nat 1%nat C
            1%float 1 1e3%float 1e-9%float false true (Some (2%nat, 3%nat)) 10 200)
  = sinkhorn_stabilized Reference.exp_ref Reference.log_ref (load h 0%nat) (load h 1%nat) C
      1%float 1 1e3%float 1e-9%float false true
      (warm_values h (Some (2%nat, 3%nat))) 10 200.
Proof.
  intros C h.
  assert (separate h 0%nat 1%nat (Some (2%nat, 3%nat))) as S.
  { unfold separate. cbn. repeat split; try lia; discriminate. }
  split; [exact S|].
  exact (proj1 (stabilized_on_separate_tensors Reference.exp_ref Reference.log_ref h
                  0%nat 1%nat C 1%float 1 1e3%float 1e-9%float false true
                  (Some (2%nat, 3%nat)) 10 200 S)).
Defined.
